(** * mdns client: query/response correlation (client.go)

    A shallow embedding of the mDNS query client: the in-progress entry
    table with its shared, mutable [ServiceEntry] objects, the record
    merge performed by [query], default handling in [QueryContext] and the
    socket set-up done by [newClient].

    Pointers to [ServiceEntry] are addresses into a heap; the Go map
    [map[string]*ServiceEntry] is a finite map from names to addresses, so
    that two keys bound to one address share one object. *)

From Stdlib Require Import ZArith String List Lia Permutation.
From stdpp Require Import base gmap strings list.

Local Open Scope string_scope.

(** ** Values of package net *)

(** [net.IP] is a byte slice; the nil slice is the empty list. *)
Definition IP := list Z.

(** [net.IPAddr]. *)
Record IPAddr := mkIPAddr { ipaddr_IP : IP; ipaddr_Zone : string }.

(** [net.UDPAddr]. *)
Record UDPAddr := mkUDPAddr { udp_IP : IP; udp_Port : Z; udp_Zone : string }.

Definition IPv4len : nat := 4.
Definition IPv6len : nat := 16.

(** Byte [i] of an address (0 outside the slice, never read there). *)
Definition byte_at (ip : IP) (i : nat) : Z := nth i ip 0%Z.

Definition isZeros (p : list Z) : bool := forallb (Z.eqb 0) p.

(** [IP.To4] of package net: the 4-byte form of an IPv4 address, also when
    it is stored as a 16-byte IPv4-mapped address; [None] is the nil
    result. *)
Definition To4 (ip : IP) : option IP :=
  if Nat.eqb (length ip) IPv4len then Some ip
  else if Nat.eqb (length ip) IPv6len
          && isZeros (firstn 10 ip)
          && Z.eqb (byte_at ip 10) 255
          && Z.eqb (byte_at ip 11) 255
       then Some (firstn 4 (skipn 12 ip))
       else None.

(** [IP.IsLinkLocalUnicast] of package net. *)
Definition IsLinkLocalUnicast (ip : IP) : bool :=
  match To4 ip with
  | Some ip4 => Z.eqb (byte_at ip4 0) 169 && Z.eqb (byte_at ip4 1) 254
  | None =>
      Nat.eqb (length ip) IPv6len
      && Z.eqb (byte_at ip 0) 254
      && Z.eqb (Z.land (byte_at ip 1) 192) 128
  end.

(** [IP.IsLinkLocalMulticast] of package net. *)
Definition IsLinkLocalMulticast (ip : IP) : bool :=
  match To4 ip with
  | Some ip4 =>
      Z.eqb (byte_at ip4 0) 224 && Z.eqb (byte_at ip4 1) 0
      && Z.eqb (byte_at ip4 2) 0
  | None =>
      Nat.eqb (length ip) IPv6len
      && Z.eqb (byte_at ip 0) 255
      && Z.eqb (Z.land (byte_at ip 1) 15) 2
  end.

(** [strings.Join]. *)
Fixpoint Join (elems : list string) (sep : string) : string :=
  match elems with
  | [] => ""
  | [s] => s
  | s :: rest => s ++ sep ++ Join rest sep
  end.

(** ** ServiceEntry *)

Record ServiceEntry := mkServiceEntry {
  Name : string;
  Host : string;
  AddrV4 : IP;
  AddrV6 : IP;
  AddrV6IPAddr : option IPAddr;
  Port : Z;
  Info : string;
  InfoFields : list string;
  SrcIP : IP;
  Addr : IP;
  hasTXT : bool;
  sent : bool
}.

(** [&ServiceEntry{Name: name}]: every other field has its zero value. *)
Definition new_entry (name : string) : ServiceEntry :=
  mkServiceEntry name "" [] [] None 0 "" [] [] [] false false.

(** [complete] returns true; the stricter test is commented out in the
    source. *)
Definition complete (s : ServiceEntry) : bool := true.

(** Field assignments [inp.F = v]. *)
Definition set_Host (v : string) (e : ServiceEntry) : ServiceEntry :=
  mkServiceEntry (Name e) v (AddrV4 e) (AddrV6 e) (AddrV6IPAddr e) (Port e)
    (Info e) (InfoFields e) (SrcIP e) (Addr e) (hasTXT e) (sent e).
Definition set_AddrV4 (v : IP) (e : ServiceEntry) : ServiceEntry :=
  mkServiceEntry (Name e) (Host e) v (AddrV6 e) (AddrV6IPAddr e) (Port e)
    (Info e) (InfoFields e) (SrcIP e) (Addr e) (hasTXT e) (sent e).
Definition set_AddrV6 (v : IP) (e : ServiceEntry) : ServiceEntry :=
  mkServiceEntry (Name e) (Host e) (AddrV4 e) v (AddrV6IPAddr e) (Port e)
    (Info e) (InfoFields e) (SrcIP e) (Addr e) (hasTXT e) (sent e).
Definition set_AddrV6IPAddr (v : option IPAddr) (e : ServiceEntry)
  : ServiceEntry :=
  mkServiceEntry (Name e) (Host e) (AddrV4 e) (AddrV6 e) v (Port e)
    (Info e) (InfoFields e) (SrcIP e) (Addr e) (hasTXT e) (sent e).
Definition set_Port (v : Z) (e : ServiceEntry) : ServiceEntry :=
  mkServiceEntry (Name e) (Host e) (AddrV4 e) (AddrV6 e) (AddrV6IPAddr e) v
    (Info e) (InfoFields e) (SrcIP e) (Addr e) (hasTXT e) (sent e).
Definition set_Info (v : string) (e : ServiceEntry) : ServiceEntry :=
  mkServiceEntry (Name e) (Host e) (AddrV4 e) (AddrV6 e) (AddrV6IPAddr e)
    (Port e) v (InfoFields e) (SrcIP e) (Addr e) (hasTXT e) (sent e).
Definition set_InfoFields (v : list string) (e : ServiceEntry)
  : ServiceEntry :=
  mkServiceEntry (Name e) (Host e) (AddrV4 e) (AddrV6 e) (AddrV6IPAddr e)
    (Port e) (Info e) v (SrcIP e) (Addr e) (hasTXT e) (sent e).
Definition set_SrcIP (v : IP) (e : ServiceEntry) : ServiceEntry :=
  mkServiceEntry (Name e) (Host e) (AddrV4 e) (AddrV6 e) (AddrV6IPAddr e)
    (Port e) (Info e) (InfoFields e) v (Addr e) (hasTXT e) (sent e).
Definition set_Addr (v : IP) (e : ServiceEntry) : ServiceEntry :=
  mkServiceEntry (Name e) (Host e) (AddrV4 e) (AddrV6 e) (AddrV6IPAddr e)
    (Port e) (Info e) (InfoFields e) (SrcIP e) v (hasTXT e) (sent e).
Definition set_hasTXT (v : bool) (e : ServiceEntry) : ServiceEntry :=
  mkServiceEntry (Name e) (Host e) (AddrV4 e) (AddrV6 e) (AddrV6IPAddr e)
    (Port e) (Info e) (InfoFields e) (SrcIP e) (Addr e) v (sent e).
Definition set_sent (v : bool) (e : ServiceEntry) : ServiceEntry :=
  mkServiceEntry (Name e) (Host e) (AddrV4 e) (AddrV6 e) (AddrV6IPAddr e)
    (Port e) (Info e) (InfoFields e) (SrcIP e) (Addr e) (hasTXT e) v.

(** ** The in-progress table *)

(** An address of a [ServiceEntry] object. *)
Abbreviation ptr := nat (only parsing).

(** The objects allocated so far and [inprogress], the map from record
    names to objects.  Allocation appends to the heap. *)
Record Store := mkStore {
  heap : list ServiceEntry;
  inprogress : gmap string nat
}.

Definition empty_store : Store := mkStore [] ∅.

(** Reading [*p]. *)
Definition deref (st : Store) (p : ptr) : option ServiceEntry :=
  heap st !! p.

(** Reading [inprogress[name]] and following the pointer. *)
Definition entry_of (st : Store) (name : string) : option ServiceEntry :=
  match inprogress st !! name with
  | Some p => deref st p
  | None => None
  end.

(** An assignment through a pointer, [p.F = v]. *)
Definition modify (st : Store) (p : ptr) (f : ServiceEntry -> ServiceEntry)
  : Store :=
  mkStore (alter f p (heap st)) (inprogress st).

(** [ensureName]: the named entry, created when absent. *)
Definition ensureName (st : Store) (name : string) : Store * ptr :=
  match inprogress st !! name with
  | Some inp => (st, inp)
  | None =>
      let inp := length (heap st) in
      (mkStore (heap st ++ [new_entry name]) (<[name := inp]> (inprogress st)),
       inp)
  end.

(** [alias]: [dst] is bound to the entry of [src]. *)
Definition alias (st : Store) (src dst : string) : Store :=
  let '(st1, srcEntry) := ensureName st src in
  mkStore (heap st1) (<[dst := srcEntry]> (inprogress st1)).

(** Every pointer held by the table is allocated. *)
Definition wf (st : Store) : Prop :=
  forall name p, inprogress st !! name = Some p -> p < length (heap st).

(** ** DNS messages (the part of package dns the client reads) *)

Inductive RR :=
| RR_PTR (hdr_name : string) (Ptr : string)
| RR_SRV (hdr_name : string) (Target : string) (port : Z)
| RR_TXT (hdr_name : string) (Txt : list string)
| RR_A (hdr_name : string) (a : IP)
| RR_AAAA (hdr_name : string) (aaaa : IP)
| RR_other (hdr_name : string).

Record Question := mkQuestion { Qname : string; Qtype : Z; Qclass : Z }.

Record Msg := mkMsg {
  Questions : list Question;
  RecursionDesired : bool;
  Answer : list RR;
  Extra : list RR
}.

(** [msgAddr]: a decoded message and the UDP address it came from. *)
Record msgAddr := mkMsgAddr { msg : Msg; src : UDPAddr }.

(** ** The record switch of [query] *)

(** One iteration of the loop over [append(Answer, Extra...)]: the state
    is the store and the local [inp] (nil is [None]). *)
Definition answer_step (from : UDPAddr) (acc : Store * option ptr) (answer : RR)
  : Store * option ptr :=
  let '(st, inp) := acc in
  match answer with
  | RR_PTR _ Ptr =>
      let '(st1, p) := ensureName st Ptr in
      (st1, Some p)
  | RR_SRV name Target port =>
      let st0 := if String.eqb Target name then st else alias st name Target in
      let '(st1, p) := ensureName st0 name in
      let st2 := modify st1 p (set_Host Target) in
      let st3 := modify st2 p (set_Port port) in
      (st3, Some p)
  | RR_TXT name Txt =>
      let '(st1, p) := ensureName st name in
      let st2 := modify st1 p (set_Info (Join Txt "|")) in
      let st3 := modify st2 p (set_InfoFields Txt) in
      let st4 := modify st3 p (set_hasTXT true) in
      (st4, Some p)
  | RR_A name a =>
      let '(st1, p) := ensureName st name in
      let st2 := modify st1 p (set_Addr a) in
      let st3 := modify st2 p (set_AddrV4 a) in
      (st3, Some p)
  | RR_AAAA name aaaa =>
      let '(st1, p) := ensureName st name in
      let st2 := modify st1 p (set_Addr aaaa) in
      let st3 := modify st2 p (set_AddrV6 aaaa) in
      let st4 := modify st3 p (set_AddrV6IPAddr (Some (mkIPAddr aaaa ""))) in
      let st5 :=
        if IsLinkLocalUnicast aaaa || IsLinkLocalMulticast aaaa
        then modify st4 p
               (fun e => set_AddrV6IPAddr
                           (option_map (fun a => mkIPAddr (ipaddr_IP a) (udp_Zone from))
                              (AddrV6IPAddr e)) e)
        else st4 in
      (st5, Some p)
  | RR_other _ => (st, inp)
  end.

(** The whole loop over the records of one message. *)
Definition process_answers (from : UDPAddr) (st : Store) (rrs : list RR)
  : Store * option ptr :=
  fold_left (answer_step from) rrs (st, None).

(** ** Query parameters *)

(** [time.Duration] counts nanoseconds. *)
Definition Duration := Z.
Definition Second : Duration := 1000000000%Z.

(** [QueryParam]; the [Interface], [Entries] and [Logger] fields are never
    read by the code below and are left out. *)
Record QueryParam := mkQueryParam {
  Service : string;
  Domain : string;
  Timeout : Duration;
  WantUnicastResponse : bool;
  DisableIPv4 : bool;
  DisableIPv6 : bool
}.

Definition set_Domain (v : string) (par : QueryParam) : QueryParam :=
  mkQueryParam (Service par) v (Timeout par) (WantUnicastResponse par)
    (DisableIPv4 par) (DisableIPv6 par).
Definition set_Timeout (v : Duration) (par : QueryParam) : QueryParam :=
  mkQueryParam (Service par) (Domain par) v (WantUnicastResponse par)
    (DisableIPv4 par) (DisableIPv6 par).

(** [DefaultParams]. *)
Definition DefaultParams (service : string) : QueryParam :=
  mkQueryParam service "local" Second false false false.

(** ** The client and its surroundings *)

Definition error := string.

(** How a call ends: it returns, or it panics (a method is called through
    a nil pointer). *)
Inductive Run (T : Type) : Type :=
| Returns (r : T)
| Panics.

Arguments Returns {T} r.
Arguments Panics {T}.

(** A bound socket, [*net.UDPConn]; the nil pointer is [None]. *)
Definition UDPConn := nat.

Record Client := mkClient {
  use_ipv4 : bool;
  use_ipv6 : bool;
  ipv4UnicastConn : option UDPConn;
  ipv6UnicastConn : option UDPConn;
  ipv4MulticastConn : option UDPConn;
  ipv6MulticastConn : option UDPConn
}.

(** What client.go uses from the rest of the package: the helper [trimDot]
    and the two multicast group addresses. *)
Record Pkg := mkPkg {
  trimDot : string -> string;
  ipv4Addr : UDPAddr;
  ipv6Addr : UDPAddr
}.

(** The outcome of a blocking [ReadFromUDP]. *)
Inductive ReadResult :=
| ReadErr
| ReadOk (buf : list Z) (addr : UDPAddr).

(** The operating system and the DNS codec, as seen by the client: for an
    operation that returns an error, [None] is the nil error; for a
    listener, [None] is a failed bind (a nil connection).
    [SetMulticastInterface] and [WriteToUDP] are asked about bound
    sockets only. *)
Record Net := mkNet {
  ListenUDP4 : option UDPConn;
  ListenUDP6 : option UDPConn;
  ListenMulticastUDP4 : option UDPConn;
  ListenMulticastUDP6 : option UDPConn;
  SetMulticastInterface : UDPConn -> option error;
  Pack : Msg -> option error;
  Unpack : list Z -> option Msg;
  WriteToUDP : UDPConn -> Msg -> UDPAddr -> option error
}.

(** A datagram written to a socket: the connection, the packed message and
    the destination. *)
Definition Datagram : Type := UDPConn * Msg * UDPAddr.

Definition TypePTR : Z := 12.
Definition ClassINET : Z := 1.

(** [Msg.SetQuestion] of package dns. *)
Definition SetQuestion (z : string) (t : Z) : Msg :=
  mkMsg [mkQuestion z t ClassINET] true [] [].

Definition set_RecursionDesired (v : bool) (m : Msg) : Msg :=
  mkMsg (Questions m) v (Answer m) (Extra m).

(** [m.Question[0].Qclass |= 1 << 15]. *)
Definition prefer_unicast (m : Msg) : Msg :=
  match Questions m with
  | q :: qs =>
      mkMsg (mkQuestion (Qname q) (Qtype q) (Z.lor (Qclass q) (Z.shiftl 1 15)) :: qs)
        (RecursionDesired m) (Answer m) (Extra m)
  | [] => m
  end.

Section ClientCode.

Context (pkg : Pkg) (net : Net).

(** [p := NewPacketConn(l); p.SetMulticastInterface(iface)] for one
    socket: on a nil connection [NewPacketConn] panics. *)
Definition set_multicast_interface (l : option UDPConn) : Run (option error) :=
  match l with
  | None => Panics
  | Some conn => Returns (SetMulticastInterface net conn)
  end.

(** [SetInterface]. *)
Definition SetInterface (c : Client) : Run (option error) :=
  let r4 :=
    if use_ipv4 c then
      match set_multicast_interface (ipv4UnicastConn c) with
      | Returns None => set_multicast_interface (ipv4MulticastConn c)
      | r => r
      end
    else Returns None in
  match r4 with
  | Returns None =>
      if use_ipv6 c then
        match set_multicast_interface (ipv6UnicastConn c) with
        | Returns None => set_multicast_interface (ipv6MulticastConn c)
        | r => r
        end
      else Returns None
  | r => r
  end.

(** What [newClient] returns: the returned pair and the connections
    handed to the [go c.recv(..)] statements, in program order. *)
Record NewClient := mkNewClient {
  nc_client : option Client;
  nc_err : option error;
  nc_spawned : list (option UDPConn)
}.

Definition is_nil {T} (o : option T) : bool :=
  match o with None => true | Some _ => false end.

(** [newClient]. *)
Definition newClient (v4 v6 : bool) : Run NewClient :=
  if negb v4 && negb v6 then
    Returns
      (mkNewClient None
         (Some "Must enable at least one of IPv4 and IPv6 querying") [])
  else
    let uconn4 := if v4 then ListenUDP4 net else None in
    let uconn6 := if v6 then ListenUDP6 net else None in
    if is_nil uconn4 && is_nil uconn6 then
      Returns (mkNewClient None (Some "failed to bind to any unicast udp port") [])
    else
      let mconn4 := if v4 then ListenMulticastUDP4 net else None in
      let mconn6 := if v6 then ListenMulticastUDP6 net else None in
      if is_nil mconn4 && is_nil mconn6 then
        Returns
          (mkNewClient None (Some "failed to bind to any multicast udp port") [])
      else
        let disable4 := is_nil uconn4 || is_nil mconn4 in
        let uconn4 := if disable4 then None else uconn4 in
        let mconn4 := if disable4 then None else mconn4 in
        let v4 := if disable4 then false else v4 in
        if negb v4 && negb v6 then
          Returns
            (mkNewClient None
               (Some "at least one of IPv4 and IPv6 must be enabled for querying")
               [])
        else
          let c := mkClient v4 v6 uconn4 uconn6 mconn4 mconn6 in
          match SetInterface c with
          | Panics => Panics
          | Returns (Some err) => Returns (mkNewClient (Some c) (Some err) [])
          | Returns None =>
              Returns
                (mkNewClient (Some c) None
                   [ipv4UnicastConn c; ipv4MulticastConn c])
          end.

(** The loop of [recv] over the reads that return before the client is
    closed: failed reads and undecodable packets are skipped, the others
    are pushed on the message channel. *)
Fixpoint recv_loop (reads : list ReadResult) : list msgAddr :=
  match reads with
  | [] => []
  | ReadErr :: rest => recv_loop rest
  | ReadOk buf addr :: rest =>
      match Unpack net buf with
      | None => recv_loop rest
      | Some m => mkMsgAddr m addr :: recv_loop rest
      end
  end.

(** [recv]: what one reader task pushes on the channel, given the reads
    each socket delivers; a nil connection returns at once. *)
Definition recv (l : option UDPConn) (traffic : UDPConn -> list ReadResult)
  : list msgAddr :=
  match l with
  | None => []
  | Some conn => recv_loop (traffic conn)
  end.

(** [l.WriteToUDP(buf, addr)] on a connection that may be nil: the error
    returned and the datagram sent; nothing is sent when the write fails,
    and a nil connection is skipped. *)
Definition write_to (l : option UDPConn) (q : Msg) (addr : UDPAddr)
  : option error * list Datagram :=
  match l with
  | None => (None, [])
  | Some conn =>
      match WriteToUDP net conn q addr with
      | Some err => (Some err, [])
      | None => (None, [(conn, q, addr)])
      end
  end.

(** [sendQuery]: the error returned and the datagrams sent. *)
Definition sendQuery (c : Client) (q : Msg) : option error * list Datagram :=
  match Pack net q with
  | Some err => (Some err, [])
  | None =>
      match write_to (ipv4UnicastConn c) q (ipv4Addr pkg) with
      | (Some err, w4) => (Some err, w4)
      | (None, w4) =>
          let '(err6, w6) := write_to (ipv6UnicastConn c) q (ipv6Addr pkg) in
          (err6, (w4 ++ w6)%list)
      end
  end.

(** The message built for one parameter in the first loop of [query]. *)
Definition question_for (par : QueryParam) : Msg :=
  let serviceAddr :=
    (trimDot pkg (Service par) ++ "." ++ trimDot pkg (Domain par) ++ ".")%string in
  let m := SetQuestion serviceAddr TypePTR in
  let m := if WantUnicastResponse par then prefer_unicast m else m in
  set_RecursionDesired false m.

(** The first loop of [query]: one question per parameter, stopping at the
    first send error. *)
Fixpoint dispatch (c : Client) (params : list QueryParam)
  : option error * list Datagram :=
  match params with
  | [] => (None, [])
  | par :: rest =>
      match sendQuery c (question_for par) with
      | (Some err, w) => (Some err, w)
      | (None, w) =>
          let '(r, w') := dispatch c rest in (r, (w ++ w')%list)
      end
  end.

(** The body of the [case resp := <-c.MsgChan] branch: the new store, the
    pointers sent on [respChan] and the datagrams written.  [ready] says
    whether the non-blocking send finds a receiver. *)
Definition handle_msg (c : Client) (st : Store) (resp : msgAddr) (ready : bool)
  : Store * list ptr * list Datagram :=
  let '(st1, inp) :=
    process_answers (src resp) st (Answer (msg resp) ++ Extra (msg resp)) in
  match inp with
  | None => (st1, [], [])
  | Some p =>
      let st2 := modify st1 p (set_SrcIP (udp_IP (src resp))) in
      match deref st2 p with
      | None => (st2, [], [])
      | Some e =>
          if complete e then
            if sent e then (st2, [], [])
            else
              let st3 := modify st2 p (set_sent true) in
              (st3, if ready then [p] else [], [])
          else
            let m := set_RecursionDesired false (SetQuestion (Name e) TypePTR) in
            let '(_, w) := sendQuery c m in
            (st2, [], w)
      end
  end.

(** A message at the head of [MsgChan] when the loop reaches its select:
    the time of that select, counted from the moment the timer is armed;
    the message; whether a receiver is waiting on [respChan] when it is
    handled; and, for a select at which the timer has fired as well, which
    of the two ready cases the runtime takes. *)
Record Arrival := mkArrival {
  at_ns : Duration;
  resp : msgAddr;
  consumer_ready : bool;
  timer_first : bool
}.

(** The [for { select { .. } }] loop.  Before the timer [finish] has fired
    only the message case is ready and the message is handled; once it has
    fired both cases are ready and the runtime chooses; with no message
    left the loop waits for the timer.  The timer case returns. *)
Fixpoint correlate (c : Client) (finish : Duration) (st : Store)
    (arrivals : list Arrival) : Store * list ptr * list Datagram :=
  match arrivals with
  | [] => (st, [], [])
  | a :: rest =>
      if (at_ns a <? finish)%Z || negb (timer_first a) then
        let '(st1, out1, w1) := handle_msg c st (resp a) (consumer_ready a) in
        let '(st2, out2, w2) := correlate c finish st1 rest in
        (st2, (out1 ++ out2)%list, (w1 ++ w2)%list)
      else (st, [], [])
  end.

(** The result of [query]: the returned error, the pointers sent on
    [respChan] in order, the final table and the datagrams written. *)
Record Outcome := mkOutcome {
  out_err : option error;
  out_emitted : list ptr;
  out_store : Store;
  out_wire : list Datagram
}.

(** The duration given to [time.After] in [query]. *)
Definition finish_after (params : list QueryParam) : Duration :=
  (2 * Second)%Z.

(** [query]. *)
Definition query (c : Client) (params : list QueryParam)
    (arrivals : list Arrival) : Outcome :=
  match dispatch c params with
  | (Some err, w) => mkOutcome (Some err) [] empty_store w
  | (None, w) =>
      let '(st, out, w') :=
        correlate c (finish_after params) empty_store arrivals in
      mkOutcome None out st (w ++ w')%list
  end.

(** The loop [for _, par := range *params] of [QueryContext]: [par] is a
    copy of the element, the assignments change the copy, and the slice
    is what it was. *)
Fixpoint range_defaults (params : list QueryParam) : list QueryParam :=
  match params with
  | [] => []
  | elem :: rest =>
      let par := elem in
      let par := if String.eqb (Domain par) "" then set_Domain "local" par else par in
      let par := if Z.eqb (Timeout par) 0 then set_Timeout Second par else par in
      elem :: range_defaults rest
  end.

(** [QueryContext]. *)
Definition QueryContext (params : list QueryParam) (queryClient : Client)
    (arrivals : list Arrival) : Outcome :=
  let params := range_defaults params in
  query queryClient params arrivals.

End ClientCode.

(** [Query]: [QueryContext] with the background context. *)
Definition Query (pkg : Pkg) (net : Net) (params : list QueryParam)
    (queryClient : Client) (arrivals : list Arrival) : Outcome :=
  QueryContext pkg net params queryClient arrivals.

(** ** Closing the client *)

(** The client together with its [closed] flag. *)
Record Session := mkSession {
  sess_client : Client;
  sess_closed : Z
}.

(** What [Close] does to the outside: it closes the channel [closedCh]
    and closes sockets. *)
Inductive CloseOp :=
| CloseCh
| CloseConn (l : UDPConn).

(** The [if l != nil { l.Close() }] statements of [Close]. *)
Definition close_conn (l : option UDPConn) : list CloseOp :=
  match l with
  | Some conn => [CloseConn conn]
  | None => []
  end.

(** [Close] called on its own: the compare-and-swap of [closed] from 0 to
    1 decides whether anything is done; the result is the session, the
    returned error and the operations performed, in order. *)
Definition Close (s : Session) : Session * option error * list CloseOp :=
  if Z.eqb (sess_closed s) 0 then
    let c := sess_client s in
    (mkSession c 1, None,
     (CloseCh :: close_conn (ipv4UnicastConn c) ++ close_conn (ipv6UnicastConn c)
        ++ close_conn (ipv4MulticastConn c)
        ++ close_conn (ipv6MulticastConn c))%list)
  else (s, None, []).

(** * Vocabulary of the properties *)

(** The key under which a record is filed: the pointed-to name for a
    pointer record, the record's own name for the four data records,
    nothing for any other type. *)
Definition rr_key (rr : RR) : option string :=
  match rr with
  | RR_PTR _ Ptr => Some Ptr
  | RR_SRV name _ _ | RR_TXT name _ | RR_A name _ | RR_AAAA name _ => Some name
  | RR_other _ => None
  end.

(** The zone stored with an AAAA address received from [from]. *)
Definition zone_for (from : UDPAddr) (aaaa : IP) : string :=
  if IsLinkLocalUnicast aaaa || IsLinkLocalMulticast aaaa
  then udp_Zone from else "".

(** The assignments of one case of the switch, composed. *)
Definition rr_update (from : UDPAddr) (rr : RR) (e : ServiceEntry)
  : ServiceEntry :=
  match rr with
  | RR_PTR _ _ => e
  | RR_SRV _ Target port => set_Port port (set_Host Target e)
  | RR_TXT _ Txt =>
      set_hasTXT true (set_InfoFields Txt (set_Info (Join Txt "|") e))
  | RR_A _ a => set_AddrV4 a (set_Addr a e)
  | RR_AAAA _ aaaa =>
      set_AddrV6IPAddr (Some (mkIPAddr aaaa (zone_for from aaaa)))
        (set_AddrV6 aaaa (set_Addr aaaa e))
  | RR_other _ => e
  end.

(** The bindings one case of the switch leaves in the table, [p] being the
    entry of the record's key. *)
Definition rr_table (rr : RR) (p : ptr) (tbl : gmap string nat)
  : gmap string nat :=
  match rr with
  | RR_PTR _ Ptr => <[Ptr := p]> tbl
  | RR_SRV name Target _ =>
      if String.eqb Target name then <[name := p]> tbl
      else <[Target := p]> (<[name := p]> tbl)
  | RR_TXT name _ | RR_A name _ | RR_AAAA name _ => <[name := p]> tbl
  | RR_other _ => tbl
  end.

(** The pointer [ensureName] yields for [k] and the heap it leaves. *)
Definition slot_of (st : Store) (k : string) : ptr :=
  default (length (heap st)) (inprogress st !! k).

Definition heap_with (st : Store) (k : string) : list ServiceEntry :=
  match inprogress st !! k with
  | Some _ => heap st
  | None => (heap st ++ [new_entry k])%list
  end.

(** The local [inp], when set, points into the heap. *)
Definition valid (st : Store) (inp : option ptr) : Prop :=
  forall p, inp = Some p -> p < length (heap st).

(** The key of the last record of a type the switch knows. *)
Definition last_touched (rrs : list RR) : option string :=
  last (omap rr_key rrs).

(** A property of the entry filed under [n]. *)
Definition holds (st : Store) (n : string) (P : ServiceEntry -> Prop) : Prop :=
  exists p e, inprogress st !! n = Some p /\ deref st p = Some e /\ P e.

(** The fields a record carries, as found in an entry. *)
Definition carried (from : UDPAddr) (rr : RR) (e : ServiceEntry) : Prop :=
  match rr with
  | RR_SRV _ Target port => Host e = Target /\ Port e = port
  | RR_TXT _ Txt =>
      Info e = Join Txt "|" /\ InfoFields e = Txt /\ hasTXT e = true
  | RR_A _ a => AddrV4 e = a
  | RR_AAAA _ aaaa =>
      AddrV6 e = aaaa
      /\ AddrV6IPAddr e = Some (mkIPAddr aaaa (zone_for from aaaa))
  | RR_PTR _ _ | RR_other _ => True
  end.

(** The case of the switch a record falls in. *)
Definition rr_kind (rr : RR) : nat :=
  match rr with
  | RR_PTR _ _ => 0
  | RR_SRV _ _ _ => 1
  | RR_TXT _ _ => 2
  | RR_A _ _ => 3
  | RR_AAAA _ _ => 4
  | RR_other _ => 5
  end.

(** [append(resp.msg.Answer, resp.msg.Extra...)]. *)
Definition records_of (m : msgAddr) : list RR :=
  (Answer (msg m) ++ Extra (msg m))%list.

(** What the assignments of [SrcIP] and [sent] keep. *)
Definition bookkeeping_stable (P : ServiceEntry -> Prop) : Prop :=
  forall e v b, P e -> P (set_SrcIP v e) /\ P (set_sent b e).

(** The records a run of the loop is offered, each with the source
    address of its packet. *)
Definition tagged (arrivals : list Arrival) : list (UDPAddr * RR) :=
  a ← arrivals; pair (src (resp a)) <$> records_of (resp a).

(** An assignment made under a key, as every data case of the switch
    does it: [ensureName] and then the assignment through the pointer. *)
Definition assign_under (st : Store) (k : string)
    (f : ServiceEntry -> ServiceEntry) : Store :=
  let '(st1, p) := ensureName st k in modify st1 p f.

(** An entry that has been sent. *)
Definition is_sent (st : Store) (p : ptr) : Prop :=
  exists e, deref st p = Some e /\ sent e = true.

Definition ex_pkg : Pkg :=
  mkPkg (fun s => s) (mkUDPAddr [224; 0; 0; 251]%Z 5353%Z "")
    (mkUDPAddr [255; 2; 0; 0; 0; 0; 0; 0; 0; 0; 0; 0; 0; 0; 0; 251]%Z 5353%Z "").

Definition ex_net : Net :=
  mkNet (Some 1) (Some 2) (Some 3) (Some 4) (fun _ => None) (fun _ => None)
    (fun _ => None) (fun _ _ _ => None).

Definition ex_client : Client :=
  mkClient true true (Some 1) (Some 2) (Some 3) (Some 4).

(** A responder on interface eth0 with a link-local address. *)
Definition ex_src : UDPAddr :=
  mkUDPAddr [254; 128; 0; 0; 0; 0; 0; 0; 0; 0; 0; 0; 0; 0; 0; 1]%Z 5353%Z "eth0".

Definition ex_ll : IP := [254; 128; 0; 0; 0; 0; 0; 0; 0; 0; 0; 0; 0; 0; 0; 7]%Z.

Definition ex_node : string := "node1._http._tcp.local.".

(** The four records of one service split over two packets, out of
    order. *)
Definition ex_arrivals : list Arrival :=
  [ mkArrival 100%Z
      (mkMsgAddr (mkMsg [] false [RR_A ex_node [10; 0; 0; 5]%Z]
                    [RR_TXT ex_node ["v=1"; "path=/"]])
         ex_src) true false;
    mkArrival 200%Z
      (mkMsgAddr (mkMsg [] false
                    [RR_AAAA ex_node ex_ll; RR_SRV ex_node "node1.local." 8080%Z]
                    [])
         ex_src) false true ].

(** One packet with records for two names. *)
Definition ex_two_names : msgAddr :=
  mkMsgAddr (mkMsg [] false
               [RR_TXT "a.local." ["x"]; RR_A "b.local." [10; 0; 0; 6]%Z]
               [RR_other "c.local."])
    ex_src.

(** [n] calls of [Close], one after the other: the session they leave
    and the operations they perform. *)
Fixpoint close_calls (n : nat) (s : Session) : Session * list CloseOp :=
  match n with
  | O => (s, [])
  | S n =>
      let '(s1, _, ops) := Close s in
      let '(s2, ops') := close_calls n s1 in
      (s2, (ops ++ ops')%list)
  end.

(** The datagrams written for a list of parameters when every send
    succeeds. *)
Definition wire_of (pkg : Pkg) (net : Net) (c : Client)
    (params : list QueryParam) : list Datagram :=
  par ← params; (sendQuery pkg net c (question_for pkg par)).2.

(** Two names bound to one object. *)
Definition shared (st : Store) (name target : string) : Prop :=
  exists p, inprogress st !! name = Some p /\ inprogress st !! target = Some p.

(** A record that does not take [name] or [target] away from the object
    they share: if it is an SRV record with one of the two as its target,
    its own name is one of the two. *)
Definition keeps_alias (name target : string) (rr : RR) : Prop :=
  match rr with
  | RR_SRV hdr t _ => t = name \/ t = target -> hdr = name \/ hdr = target
  | _ => True
  end.

(** Two services on one host, then the address of the host. *)
Definition ex_two_services : list RR :=
  [ RR_SRV "svc1.local." "host.local." 80%Z;
    RR_SRV "svc2.local." "host.local." 81%Z;
    RR_A "host.local." [10; 0; 0; 5]%Z ].

(** A service located on a host, and later packets for both names. *)
Definition ex_alias_msg : msgAddr :=
  mkMsgAddr (mkMsg [] false
               [RR_PTR "_http._tcp.local." ex_node;
                RR_SRV ex_node "node1.local." 8080%Z]
               [RR_TXT ex_node ["v=1"]])
    ex_src.

Definition ex_alias_later : list Arrival :=
  [ mkArrival 300%Z
      (mkMsgAddr (mkMsg [] false [RR_A "node1.local." [10; 0; 0; 5]%Z] []) ex_src)
      true false;
    mkArrival 400%Z
      (mkMsgAddr (mkMsg [] false [RR_AAAA ex_node ex_ll] []) ex_src)
      true false ].

(** A network on which the IPv6 write of the question for x.bad. fails. *)
Definition ex_net_badwrite : Net :=
  mkNet (Some 1) (Some 2) (Some 3) (Some 4) (fun _ => None) (fun _ => None)
    (fun _ => None)
    (fun conn m _ =>
       match Questions m with
       | q :: _ =>
           if Nat.eqb conn 2 && String.eqb (Qname q) "x.bad."
           then Some "unreachable" else None
       | [] => None
       end).

(** The reader tasks a call of [newClient] has started. *)
Definition readers (r : Run NewClient) : list (option UDPConn) :=
  match r with
  | Returns x => nc_spawned x
  | Panics => []
  end.

(** * Properties *)

(** ** The heap and the table *)

Lemma deref_modify st p f q :
  deref (modify st p f) q
  = if decide (p = q) then f <$> deref st q else deref st q.
Proof.
  unfold deref, modify; simpl.
  destruct (decide (p = q)) as [->|Hne].
  - apply list_lookup_alter_eq.
  - by apply list_lookup_alter_ne.
Qed.

Lemma deref_modify_eq st p f e :
  deref st p = Some e -> deref (modify st p f) p = Some (f e).
Proof. intros H. rewrite deref_modify, decide_True by done. by rewrite H. Qed.

Lemma deref_modify_ne st p f q :
  p <> q -> deref (modify st p f) q = deref st q.
Proof. intros H. by rewrite deref_modify, decide_False. Qed.

Lemma inprogress_modify st p f : inprogress (modify st p f) = inprogress st.
Proof. reflexivity. Qed.

Lemma length_heap_modify st p f :
  length (heap (modify st p f)) = length (heap st).
Proof. unfold modify; simpl. apply length_alter. Qed.

Lemma wf_modify st p f : wf st -> wf (modify st p f).
Proof.
  intros H name q Hq. rewrite length_heap_modify. by apply (H name).
Qed.

Lemma deref_Some_lt st p e : deref st p = Some e -> p < length (heap st).
Proof. unfold deref. intros H. by apply lookup_lt_Some in H. Qed.

Lemma deref_lt_Some st p : p < length (heap st) -> exists e, deref st p = Some e.
Proof. unfold deref. intros H. by apply lookup_lt_is_Some_2. Qed.

Lemma ensureName_old st name p :
  inprogress st !! name = Some p -> ensureName st name = (st, p).
Proof. unfold ensureName. by intros ->. Qed.

(** ** One record as a pure update *)

Lemma ensureName_eq st k :
  ensureName st k
  = (mkStore (heap_with st k) (<[k := slot_of st k]> (inprogress st)),
     slot_of st k).
Proof.
  unfold ensureName, heap_with, slot_of.
  destruct (inprogress st !! k) as [p|] eqn:Hl; simpl; [|done].
  rewrite insert_id by done. by destruct st.
Qed.

Lemma alias_eq st src dst :
  alias st src dst
  = mkStore (heap_with st src)
      (<[dst := slot_of st src]> (<[src := slot_of st src]> (inprogress st))).
Proof. unfold alias. by rewrite ensureName_eq. Qed.

Lemma slot_of_alias st src dst :
  dst <> src -> slot_of (alias st src dst) src = slot_of st src.
Proof.
  intros Hne. rewrite alias_eq. unfold slot_of at 1; simpl.
  rewrite lookup_insert_ne by done. by rewrite lookup_insert_eq.
Qed.

Lemma heap_with_alias st src dst :
  dst <> src -> heap_with (alias st src dst) src = heap_with st src.
Proof.
  intros Hne. rewrite alias_eq. unfold heap_with at 1; simpl.
  rewrite lookup_insert_ne by done. by rewrite lookup_insert_eq.
Qed.

Lemma alter_option_zone (h : list ServiceEntry) p aaaa z :
  alter (fun e => set_AddrV6IPAddr
                    (option_map (fun a => mkIPAddr (ipaddr_IP a) z)
                       (AddrV6IPAddr e)) e) p
    (alter (set_AddrV6IPAddr (Some (mkIPAddr aaaa ""))) p h)
  = alter (set_AddrV6IPAddr (Some (mkIPAddr aaaa z))) p h.
Proof.
  rewrite list_alter_alter_eq. apply list_alter_ext; [|done].
  intros e _. by destruct e.
Qed.

(** One iteration of the record loop, in closed form: the entry of the
    record's key is created if absent and updated in place, and the table
    receives the bindings of the case. *)
Lemma answer_step_eq from st inp rr k :
  rr_key rr = Some k ->
  answer_step from (st, inp) rr
  = (mkStore (alter (rr_update from rr) (slot_of st k) (heap_with st k))
       (rr_table rr (slot_of st k) (inprogress st)),
     Some (slot_of st k)).
Proof.
  destruct rr as [h t|name Target port|name Txt|name a|name aaaa|h];
    simpl; intros [= <-]; try discriminate.
  - rewrite ensureName_eq. f_equal. f_equal.
    symmetry. by apply list_alter_id.
  - destruct (String.eqb_spec Target name) as [->|Hne].
    + rewrite ensureName_eq. unfold modify; simpl.
      by rewrite list_alter_alter_eq.
    + rewrite ensureName_eq.
      rewrite slot_of_alias, heap_with_alias by done.
      rewrite alias_eq.
      unfold modify; simpl. rewrite list_alter_alter_eq.
      f_equal. f_equal.
      rewrite (insert_id (<[Target:=_]> _)); [done|].
      rewrite lookup_insert_ne by done. apply lookup_insert_eq.
  - rewrite ensureName_eq. unfold modify; simpl.
    by rewrite !list_alter_alter_eq.
  - rewrite ensureName_eq. unfold modify; simpl.
    by rewrite list_alter_alter_eq.
  - rewrite ensureName_eq. unfold modify, rr_update, zone_for; simpl.
    destruct (IsLinkLocalUnicast aaaa || IsLinkLocalMulticast aaaa); simpl.
    + rewrite alter_option_zone. by rewrite !list_alter_alter_eq.
    + by rewrite !list_alter_alter_eq.
Qed.

Lemma answer_step_other from st inp rr :
  rr_key rr = None -> answer_step from (st, inp) rr = (st, inp).
Proof. by destruct rr. Qed.

Lemma heap_with_old st k q e :
  deref st q = Some e -> heap_with st k !! q = Some e.
Proof.
  unfold heap_with, deref. intros H.
  destruct (inprogress st !! k); [done|]. by apply lookup_app_l_Some.
Qed.

Lemma heap_with_fresh st k q e :
  length (heap st) <= q -> heap_with st k !! q = Some e ->
  q = slot_of st k /\ e = new_entry k /\ inprogress st !! k = None.
Proof.
  unfold heap_with, slot_of. intros Hge.
  destruct (inprogress st !! k) as [p|]; simpl; intros H.
  - apply lookup_lt_Some in H. lia.
  - rewrite lookup_app_r in H by done.
    destruct (q - length (heap st)) as [|m] eqn:Hd; simpl in H; [|done].
    injection H as <-. split; [lia|done].
Qed.

Lemma length_heap_with st k : length (heap st) <= length (heap_with st k).
Proof.
  unfold heap_with. destruct (inprogress st !! k); [done|].
  rewrite length_app. lia.
Qed.

Lemma slot_of_lt st k : wf st -> slot_of st k < length (heap_with st k).
Proof.
  unfold slot_of, heap_with. intros Hwf.
  destruct (inprogress st !! k) as [p|] eqn:Hl; simpl.
  - by apply (Hwf k).
  - rewrite length_app; simpl. lia.
Qed.

Lemma heap_with_slot st k :
  wf st ->
  heap_with st k !! slot_of st k
  = Some (default (new_entry k) (entry_of st k)).
Proof.
  unfold slot_of, heap_with, entry_of. intros Hwf.
  destruct (inprogress st !! k) as [p|] eqn:Hl; simpl.
  - destruct (deref_lt_Some st p) as [e He]; [by apply (Hwf k)|].
    rewrite He. exact He.
  - rewrite lookup_app_r by done. by rewrite Nat.sub_diag.
Qed.

Lemma rr_table_key rr k p tbl :
  rr_key rr = Some k -> rr_table rr p tbl !! k = Some p.
Proof.
  destruct rr as [h t|name Target port|name Txt|name a|name aaaa|h];
    simpl; intros [= <-]; try apply lookup_insert_eq.
  destruct (String.eqb_spec Target name) as [->|Hne].
  - apply lookup_insert_eq.
  - rewrite lookup_insert_ne by done. apply lookup_insert_eq.
Qed.

Lemma rr_table_range rr p tbl k q :
  rr_table rr p tbl !! k = Some q -> q = p \/ tbl !! k = Some q.
Proof.
  destruct rr as [h t|name Target port|name Txt|name a|name aaaa|h]; simpl;
    try (destruct (String.eqb Target name));
    rewrite ?lookup_insert; repeat case_decide;
    intros Hq; try (injection Hq as <-); auto.
Qed.

(** The fields the record cases never assign. *)
Lemma rr_update_quiet from rr e :
  Name (rr_update from rr e) = Name e
  /\ SrcIP (rr_update from rr e) = SrcIP e
  /\ sent (rr_update from rr e) = sent e.
Proof. by destruct rr. Qed.

(** Consequences of the closed form for one record. *)
Lemma answer_step_wf from st inp rr st' inp' :
  wf st -> valid st inp ->
  answer_step from (st, inp) rr = (st', inp') ->
  wf st' /\ valid st' inp'.
Proof.
  intros Hwf Hv. destruct (rr_key rr) as [k|] eqn:Hk.
  - rewrite (answer_step_eq _ _ _ _ k Hk). intros [= <- <-].
    pose proof (slot_of_lt st k Hwf) as Hlt.
    pose proof (length_heap_with st k) as Hle.
    split.
    + intros name q Hq. simpl in *. rewrite length_alter.
      apply rr_table_range in Hq as [->|Hq]; [done|].
      apply Hwf in Hq. lia.
    + intros q [= <-]. simpl. by rewrite length_alter.
  - rewrite answer_step_other by done. by intros [= <- <-].
Qed.

Lemma answer_step_length from st inp rr st' inp' :
  answer_step from (st, inp) rr = (st', inp') ->
  length (heap st) <= length (heap st').
Proof.
  destruct (rr_key rr) as [k|] eqn:Hk.
  - rewrite (answer_step_eq _ _ _ _ k Hk). intros [= <- <-]. simpl.
    rewrite length_alter. apply length_heap_with.
  - rewrite answer_step_other by done. by intros [= <- <-].
Qed.

(** An object allocated before the record is left alone or receives the
    assignments of the record's case. *)
Lemma answer_step_old from st inp rr st' inp' q e :
  answer_step from (st, inp) rr = (st', inp') ->
  deref st q = Some e ->
  exists e', deref st' q = Some e' /\ (e' = e \/ e' = rr_update from rr e).
Proof.
  destruct (rr_key rr) as [k|] eqn:Hk.
  - rewrite (answer_step_eq _ _ _ _ k Hk). intros [= <- <-] Hq.
    apply (heap_with_old st k) in Hq. unfold deref; simpl.
    rewrite list_lookup_alter. case_decide; subst; rewrite Hq; simpl; eauto.
  - rewrite answer_step_other by done. intros [= <- <-] Hq. eauto.
Qed.

(** An object allocated by the record is the entry of its key, a new
    entry that received the assignments of the case. *)
Lemma answer_step_fresh from st inp rr st' inp' q e' :
  answer_step from (st, inp) rr = (st', inp') ->
  length (heap st) <= q -> deref st' q = Some e' ->
  exists k, rr_key rr = Some k /\ inp' = Some q
            /\ e' = rr_update from rr (new_entry k).
Proof.
  destruct (rr_key rr) as [k|] eqn:Hk.
  - rewrite (answer_step_eq _ _ _ _ k Hk). intros [= <- <-] Hge.
    unfold deref; simpl. rewrite list_lookup_alter.
    destruct (heap_with st k !! q) as [e|] eqn:Hq.
    + destruct (heap_with_fresh _ _ _ _ Hge Hq) as (-> & -> & _).
      rewrite decide_True by done. rewrite Hq. simpl. intros [= <-].
      by exists k.
    + case_decide; subst; [rewrite Hq|]; done.
  - rewrite answer_step_other by done. intros [= <- <-] Hge Hq.
    apply deref_Some_lt in Hq. lia.
Qed.

(** The entry of the record's key after the record. *)
Lemma answer_step_key from st inp rr st' inp' k :
  wf st -> rr_key rr = Some k ->
  answer_step from (st, inp) rr = (st', inp') ->
  exists p,
    inp' = Some p /\ inprogress st' !! k = Some p
    /\ deref st' p
       = Some (rr_update from rr (default (new_entry k) (entry_of st k))).
Proof.
  intros Hwf Hk. rewrite (answer_step_eq _ _ _ _ k Hk). intros [= <- <-].
  exists (slot_of st k). split; [done|]. simpl.
  split; [by apply rr_table_key|].
  unfold deref; simpl. rewrite list_lookup_alter_eq.
  by rewrite heap_with_slot.
Qed.

(** ** The record loop of one message *)

Arguments answer_step : simpl never.

Lemma answers_wf from rrs : forall st inp st' inp',
  wf st -> valid st inp ->
  fold_left (answer_step from) rrs (st, inp) = (st', inp') ->
  wf st' /\ valid st' inp' /\ length (heap st) <= length (heap st').
Proof.
  induction rrs as [|rr rrs IH]; simpl; intros st inp st' inp' Hwf Hv Hrun.
  - injection Hrun as <- <-. auto.
  - destruct (answer_step from (st, inp) rr) as [st1 inp1] eqn:Hstep.
    destruct (answer_step_wf _ _ _ _ _ _ Hwf Hv Hstep) as [Hwf1 Hv1].
    apply answer_step_length in Hstep.
    destruct (IH _ _ _ _ Hwf1 Hv1 Hrun) as (? & ? & ?).
    repeat split; auto. lia.
Qed.

(** No record assigns [Name], [SrcIP] or [sent]. *)
Lemma answers_old from rrs : forall st inp st' inp' q e,
  fold_left (answer_step from) rrs (st, inp) = (st', inp') ->
  deref st q = Some e ->
  exists e', deref st' q = Some e'
             /\ Name e' = Name e /\ SrcIP e' = SrcIP e /\ sent e' = sent e.
Proof.
  induction rrs as [|rr rrs IH]; simpl; intros st inp st' inp' q e Hrun Hq.
  - injection Hrun as <- <-. eauto.
  - destruct (answer_step from (st, inp) rr) as [st1 inp1] eqn:Hstep.
    destruct (answer_step_old _ _ _ _ _ _ _ _ Hstep Hq) as (e1 & Hq1 & He1).
    destruct (IH _ _ _ _ _ _ Hrun Hq1) as (e' & Hq' & Hn & Hs & Ht).
    exists e'. split; [done|].
    destruct (rr_update_quiet from rr e) as (Hn0 & Hs0 & Ht0).
    destruct He1 as [->| ->]; repeat split; congruence.
Qed.

(** An entry created while the records of a message are processed has no
    source address and is not sent. *)
Lemma answers_fresh from rrs : forall st inp st' inp' q e',
  fold_left (answer_step from) rrs (st, inp) = (st', inp') ->
  length (heap st) <= q -> deref st' q = Some e' ->
  SrcIP e' = [] /\ sent e' = false.
Proof.
  induction rrs as [|rr rrs IH]; simpl; intros st inp st' inp' q e' Hrun Hge Hq.
  - injection Hrun as <- <-. apply deref_Some_lt in Hq. lia.
  - destruct (answer_step from (st, inp) rr) as [st1 inp1] eqn:Hstep.
    destruct (decide (q < length (heap st1))) as [Hlt|Hnlt].
    + destruct (deref_lt_Some _ _ Hlt) as [e1 Hq1].
      destruct (answer_step_fresh _ _ _ _ _ _ _ _ Hstep Hge Hq1)
        as (k & _ & _ & ->).
      destruct (answers_old _ _ _ _ _ _ _ _ Hrun Hq1) as (e2 & Hq2 & _ & Hs & Ht).
      rewrite Hq in Hq2. injection Hq2 as <-.
      destruct (rr_update_quiet from rr (new_entry k)) as (_ & Hs0 & Ht0).
      simpl in Hs0, Ht0. split; congruence.
    + apply (IH st1 inp1 st' inp' q e' Hrun); [lia|done].
Qed.

(** After the loop, [inp] is the entry the table holds for the key of the
    last record that matched a case. *)
Lemma answers_inp from st rrs st' inp' :
  process_answers from st rrs = (st', inp') ->
  inp' = (last_touched rrs ≫= fun k => inprogress st' !! k).
Proof.
  unfold process_answers, last_touched. revert st' inp'.
  induction rrs as [|rr rrs IH] using rev_ind; intros st' inp'.
  - simpl. by intros [= <- <-].
  - rewrite fold_left_app, omap_app. simpl.
    destruct (fold_left (answer_step from) rrs (st, None)) as [st1 inp1].
    specialize (IH _ _ eq_refl).
    destruct (rr_key rr) as [k|] eqn:Hk.
    + rewrite (answer_step_eq _ _ _ _ k Hk). intros [= <- <-].
      rewrite last_snoc. simpl. symmetry. by apply rr_table_key.
    + rewrite answer_step_other by done. intros [= <- <-].
      by rewrite app_nil_r.
Qed.

Lemma holds_modify st n P q f :
  holds st n P -> (forall e, P e -> P (f e)) -> holds (modify st q f) n P.
Proof.
  intros (p & e & Hp & He & HP) Hf. exists p.
  destruct (decide (q = p)) as [->|Hne].
  - exists (f e). rewrite (deref_modify_eq _ _ _ e) by done. auto.
  - exists e. rewrite deref_modify_ne by done. auto.
Qed.

(** A record filed under [n] keeps what its assignments keep. *)
Lemma answer_step_keep from st inp rr st' inp' n P :
  wf st -> rr_key rr = Some n ->
  holds st n P -> (forall e, P e -> P (rr_update from rr e)) ->
  answer_step from (st, inp) rr = (st', inp') ->
  holds st' n P.
Proof.
  intros Hwf Hk (p & e & Hp & He & HP) Hupd Hstep.
  destruct (answer_step_key _ _ _ _ _ _ _ Hwf Hk Hstep) as (p' & _ & Hp' & He').
  exists p', (rr_update from rr e). split; [done|]. split; [|auto].
  rewrite He'. unfold entry_of. rewrite Hp, He. done.
Qed.

Lemma carried_update from rr e : carried from rr (rr_update from rr e).
Proof. by destruct rr. Qed.

Lemma carried_keep from rr from' rr' e :
  rr_kind rr <> rr_kind rr' ->
  carried from rr e -> carried from rr (rr_update from' rr' e).
Proof. destruct rr, rr'; simpl; intros Hk H; done. Qed.

Lemma carried_bookkeeping from rr e v b :
  carried from rr e ->
  carried from rr (set_SrcIP v e) /\ carried from rr (set_sent b e).
Proof. by destruct rr. Qed.

Lemma answer_step_carried from st inp rr st' inp' n :
  wf st -> rr_key rr = Some n ->
  answer_step from (st, inp) rr = (st', inp') ->
  holds st' n (carried from rr).
Proof.
  intros Hwf Hk Hstep.
  destruct (answer_step_key _ _ _ _ _ _ _ Hwf Hk Hstep) as (p' & _ & Hp' & He').
  exists p'. eexists. split; [done|]. split; [done|]. apply carried_update.
Qed.

Lemma answers_keep from n P rrs : forall st inp st' inp',
  wf st -> valid st inp ->
  Forall (fun r => rr_key r = Some n) rrs ->
  holds st n P ->
  (forall r e, r ∈ rrs -> P e -> P (rr_update from r e)) ->
  fold_left (answer_step from) rrs (st, inp) = (st', inp') ->
  holds st' n P.
Proof.
  induction rrs as [|rr rrs IH]; simpl;
    intros st inp st' inp' Hwf Hv Hall Hh Hupd Hrun.
  - by injection Hrun as <- <-.
  - destruct (answer_step from (st, inp) rr) as [st1 inp1] eqn:Hstep.
    apply Forall_cons in Hall as [Hk Hall].
    destruct (answer_step_wf _ _ _ _ _ _ Hwf Hv Hstep) as [Hwf1 Hv1].
    apply (IH st1 inp1 st' inp'); auto.
    + apply (answer_step_keep from st inp rr st1 inp1); auto.
      intros e. apply Hupd. apply elem_of_cons. auto.
    + intros r e Hr. apply Hupd. apply elem_of_cons. auto.
Qed.

(** Records of pairwise different cases, all filed under [n]: the entry
    carries the fields of each, whatever their order. *)
Lemma answers_carried from n rrs : forall st inp st' inp' r,
  wf st -> valid st inp ->
  Forall (fun r => rr_key r = Some n) rrs ->
  NoDup (rr_kind <$> rrs) ->
  fold_left (answer_step from) rrs (st, inp) = (st', inp') ->
  r ∈ rrs ->
  holds st' n (carried from r).
Proof.
  induction rrs as [|rr rrs IH]; simpl;
    intros st inp st' inp' r Hwf Hv Hall Hnd Hrun Hr.
  - by apply elem_of_nil in Hr.
  - destruct (answer_step from (st, inp) rr) as [st1 inp1] eqn:Hstep.
    apply Forall_cons in Hall as [Hk Hall].
    apply NoDup_cons in Hnd as [Hnotin Hnd].
    destruct (answer_step_wf _ _ _ _ _ _ Hwf Hv Hstep) as [Hwf1 Hv1].
    apply elem_of_cons in Hr as [->|Hr].
    + apply (answers_keep from n _ rrs st1 inp1 st' inp'); auto.
      * by apply (answer_step_carried from st inp rr st1 inp1).
      * intros r e Hr. apply carried_keep. intros Heq. apply Hnotin.
        rewrite Heq. by apply list_elem_of_fmap_2.
    + by apply (IH st1 inp1 st' inp').
Qed.

(** ** One message *)

Lemma valid_None st : valid st None.
Proof. by intros p. Qed.

(** The branches of [handle_msg]: with [complete] always true the
    follow-up query is never sent, and the store is that of the record
    loop with [SrcIP] and, on the first completion, [sent] assigned. *)
Lemma handle_msg_cases pkg net c st m ready st' out w :
  handle_msg pkg net c st m ready = (st', out, w) ->
  exists st1 inp,
    process_answers (src m) st (records_of m) = (st1, inp)
    /\ w = []
    /\ match inp with
       | None => st' = st1 /\ out = []
       | Some p =>
           let st2 := modify st1 p (set_SrcIP (udp_IP (src m))) in
           match deref st2 p with
           | None => st' = st2 /\ out = []
           | Some e =>
               if sent e then st' = st2 /\ out = []
               else st' = modify st2 p (set_sent true)
                    /\ out = (if ready then [p] else [])
           end
       end.
Proof.
  unfold handle_msg, records_of.
  destruct (process_answers (src m) st (Answer (msg m) ++ Extra (msg m)))
    as [st1 inp].
  intros H. exists st1, inp. split; [done|].
  destruct inp as [p|]; [|by injection H as <- <- <-].
  cbv zeta in *.
  destruct (deref (modify st1 p (set_SrcIP (udp_IP (src m)))) p) as [e|];
    [|by injection H as <- <- <-].
  unfold complete in H.
  destruct (sent e); by injection H as <- <- <-.
Qed.

Lemma handle_msg_wf pkg net c st m ready st' out w :
  wf st -> handle_msg pkg net c st m ready = (st', out, w) -> wf st'.
Proof.
  intros Hwf H.
  destruct (handle_msg_cases _ _ _ _ _ _ _ _ _ H) as (st1 & inp & Hrun & _ & Hc).
  destruct (answers_wf _ _ _ _ _ _ Hwf (valid_None st) Hrun) as (Hwf1 & _ & _).
  destruct inp as [p|]; [|by destruct Hc as [-> _]].
  cbv zeta in Hc.
  destruct (deref (modify st1 p (set_SrcIP (udp_IP (src m)))) p) as [e|];
    [destruct (sent e)|]; destruct Hc as [-> _]; auto using wf_modify.
Qed.

Lemma handle_msg_keep pkg net c st m ready st' out w n P :
  wf st ->
  Forall (fun r => rr_key r = Some n) (records_of m) ->
  holds st n P ->
  (forall r e, r ∈ records_of m -> P e -> P (rr_update (src m) r e)) ->
  bookkeeping_stable P ->
  handle_msg pkg net c st m ready = (st', out, w) ->
  holds st' n P.
Proof.
  intros Hwf Hall Hh Hupd Hbk H.
  destruct (handle_msg_cases _ _ _ _ _ _ _ _ _ H) as (st1 & inp & Hrun & _ & Hc).
  assert (holds st1 n P) as Hh1
    by (eapply answers_keep; eauto using valid_None).
  destruct inp as [p|]; [|by destruct Hc as [-> _]].
  cbv zeta in Hc.
  assert (holds (modify st1 p (set_SrcIP (udp_IP (src m)))) n P) as Hh2
    by (apply holds_modify; [done|]; intros e He; by apply Hbk).
  destruct (deref (modify st1 p (set_SrcIP (udp_IP (src m)))) p) as [e|];
    [destruct (sent e)|]; destruct Hc as [-> _]; auto.
  apply holds_modify; [done|]. intros e' He'.
  by destruct (Hbk e' [] true He').
Qed.

Lemma carried_stable from rr : bookkeeping_stable (carried from rr).
Proof. intros e v b. apply carried_bookkeeping. Qed.

Lemma handle_msg_carried pkg net c st m ready st' out w n r :
  wf st ->
  Forall (fun r => rr_key r = Some n) (records_of m) ->
  NoDup (rr_kind <$> records_of m) ->
  handle_msg pkg net c st m ready = (st', out, w) ->
  r ∈ records_of m ->
  holds st' n (carried (src m) r).
Proof.
  intros Hwf Hall Hnd H Hr.
  destruct (handle_msg_cases _ _ _ _ _ _ _ _ _ H) as (st1 & inp & Hrun & _ & Hc).
  assert (holds st1 n (carried (src m) r)) as Hh1
    by (eapply answers_carried; eauto using valid_None).
  destruct inp as [p|]; [|by destruct Hc as [-> _]].
  cbv zeta in Hc.
  assert (holds (modify st1 p (set_SrcIP (udp_IP (src m)))) n
            (carried (src m) r)) as Hh2
    by (apply holds_modify; [done|]; intros e He; by apply carried_stable).
  destruct (deref (modify st1 p (set_SrcIP (udp_IP (src m)))) p) as [e|];
    [destruct (sent e)|]; destruct Hc as [-> _]; auto.
  apply holds_modify; [done|]. intros e' He'.
  by destruct (carried_stable (src m) r e' [] true He').
Qed.

(** ** The correlation loop *)

Arguments handle_msg : simpl never.

Lemma tagged_cons a arrivals :
  tagged (a :: arrivals)
  = ((pair (src (resp a)) <$> records_of (resp a)) ++ tagged arrivals)%list.
Proof. reflexivity. Qed.

Lemma correlate_wf pkg net c finish arrivals : forall st st' out w,
  wf st -> correlate pkg net c finish st arrivals = (st', out, w) -> wf st'.
Proof.
  induction arrivals as [|a arrivals IH]; simpl; intros st st' out w Hwf H.
  - by injection H as <- <- <-.
  - destruct ((at_ns a <? finish)%Z || negb (timer_first a)); [|by injection H as <- <- <-].
    destruct (handle_msg pkg net c st (resp a) (consumer_ready a))
      as [[st1 out1] w1] eqn:Hm.
    destruct (correlate pkg net c finish st1 arrivals) as [[st2 out2] w2] eqn:Hc.
    injection H as <- <- <-.
    apply (IH st1 st2 out2 w2); [|done].
    by apply (handle_msg_wf pkg net c st (resp a) (consumer_ready a) st1 out1 w1).
Qed.

Lemma correlate_keep pkg net c finish n P arrivals : forall st st' out w,
  wf st ->
  Forall (fun t => rr_key t.2 = Some n) (tagged arrivals) ->
  holds st n P ->
  (forall t e, t ∈ tagged arrivals -> P e -> P (rr_update t.1 t.2 e)) ->
  bookkeeping_stable P ->
  correlate pkg net c finish st arrivals = (st', out, w) ->
  holds st' n P.
Proof.
  induction arrivals as [|a arrivals IH];
    intros st st' out w Hwf Hall Hh Hupd Hbk H; simpl in H.
  - by injection H as <- <- <-.
  - destruct ((at_ns a <? finish)%Z || negb (timer_first a)); [|by injection H as <- <- <-].
    destruct (handle_msg pkg net c st (resp a) (consumer_ready a))
      as [[st1 out1] w1] eqn:Hm.
    destruct (correlate pkg net c finish st1 arrivals) as [[st2 out2] w2] eqn:Hc.
    injection H as <- <- <-.
    rewrite tagged_cons in Hall, Hupd.
    apply Forall_app in Hall as [Hall1 Hall2].
    apply (IH st1 st2 out2 w2); auto.
    + by apply (handle_msg_wf pkg net c st (resp a) (consumer_ready a) st1 out1 w1).
    + apply (handle_msg_keep pkg net c st (resp a) (consumer_ready a)
               st1 out1 w1); auto.
      * apply Forall_fmap in Hall1. exact Hall1.
      * intros r e Hr. apply (Hupd (src (resp a), r)).
        apply elem_of_app. left. by apply list_elem_of_fmap_2.
    + intros t e Ht. apply Hupd. apply elem_of_app. by right.
Qed.

(** Records of pairwise different cases, all filed under [n] and spread
    over the messages handled before the timer fires: the entry carries
    the fields of each of them. *)
Lemma correlate_carried pkg net c finish n arrivals : forall st st' out w t,
  wf st ->
  Forall (fun a => (at_ns a < finish)%Z) arrivals ->
  Forall (fun t => rr_key t.2 = Some n) (tagged arrivals) ->
  NoDup ((fun t => rr_kind t.2) <$> tagged arrivals) ->
  correlate pkg net c finish st arrivals = (st', out, w) ->
  t ∈ tagged arrivals ->
  holds st' n (carried t.1 t.2).
Proof.
  induction arrivals as [|a arrivals IH];
    intros st st' out w t Hwf Hat Hall Hnd H Ht; simpl in H.
  - cbn in Ht. by apply elem_of_nil in Ht.
  - apply Forall_cons in Hat as [Ha Hat].
    apply Z.ltb_lt in Ha. rewrite Ha in H. simpl in H.
    destruct (handle_msg pkg net c st (resp a) (consumer_ready a))
      as [[st1 out1] w1] eqn:Hm.
    destruct (correlate pkg net c finish st1 arrivals) as [[st2 out2] w2] eqn:Hc.
    injection H as <- <- <-.
    rewrite tagged_cons in Hall, Hnd, Ht.
    apply Forall_app in Hall as [Hall1 Hall2].
    rewrite fmap_app in Hnd. apply NoDup_app in Hnd as (Hnd1 & Hdisj & Hnd2).
    rewrite <- list_fmap_compose in Hnd1.
    apply Forall_fmap in Hall1.
    pose proof (handle_msg_wf pkg net c st (resp a) (consumer_ready a)
                  st1 out1 w1 Hwf Hm) as Hwf1.
    apply elem_of_app in Ht as [Ht|Ht].
    + apply list_elem_of_fmap in Ht as (r & -> & Hr). simpl.
      apply (correlate_keep pkg net c finish n _ arrivals st1 st2 out2 w2);
        auto using carried_stable.
      * by apply (handle_msg_carried pkg net c st (resp a) (consumer_ready a)
                    st1 out1 w1).
      * intros t e Ht. apply carried_keep. intros Heq.
        apply (Hdisj (rr_kind r)).
        -- apply list_elem_of_fmap. exists (src (resp a), r). split; [done|].
           by apply list_elem_of_fmap_2.
        -- rewrite Heq. by apply (list_elem_of_fmap_2 (fun t => rr_kind t.2)).
    + by apply (IH st1 st2 out2 w2 t).
Qed.

(** * The claims *)

Lemma wf_empty : wf empty_store.
Proof. intros name p H. simpl in H. by rewrite lookup_empty in H. Qed.

(** C7: one SRV, one TXT, one A and one AAAA record for one name, handled
    before the timer fires in any order and in any grouping into
    messages, leave under that name an entry with the host and port of the
    SRV record, the text of the TXT record, the IPv4 address of the A
    record and the IPv6 address of the AAAA record (with the zone of the
    packet that carried it when it is link-local). *)
Theorem merge_order_independent pkg net c finish st arrivals st' out w
    name target port txt a aaaa s1 s2 s3 s4 :
  wf st ->
  Forall (fun x => (at_ns x < finish)%Z) arrivals ->
  tagged arrivals ≡ₚ [(s1, RR_SRV name target port); (s2, RR_TXT name txt);
                      (s3, RR_A name a); (s4, RR_AAAA name aaaa)] ->
  correlate pkg net c finish st arrivals = (st', out, w) ->
  exists e,
    entry_of st' name = Some e
    /\ Host e = target /\ Port e = port
    /\ Info e = Join txt "|" /\ InfoFields e = txt /\ hasTXT e = true
    /\ AddrV4 e = a
    /\ AddrV6 e = aaaa
    /\ AddrV6IPAddr e = Some (mkIPAddr aaaa (zone_for s4 aaaa)).
Proof.
  intros Hwf Hat Hperm Hrun.
  assert (Forall (fun t => rr_key t.2 = Some name) (tagged arrivals)) as Hall.
  { rewrite Hperm. repeat constructor. }
  assert (NoDup ((fun t => rr_kind t.2) <$> tagged arrivals)) as Hnd.
  { rewrite Hperm. simpl. apply NoDup_ListNoDup.
    repeat constructor; simpl; intuition discriminate. }
  assert (forall t, t ∈ [(s1, RR_SRV name target port); (s2, RR_TXT name txt);
                         (s3, RR_A name a); (s4, RR_AAAA name aaaa)] ->
                    holds st' name (carried t.1 t.2)) as Hcar.
  { intros t Ht. rewrite <- Hperm in Ht.
    by apply (correlate_carried pkg net c finish name arrivals st st' out w t). }
  destruct (Hcar (s1, RR_SRV name target port)) as (p & e & Hp & He & H1 & H2);
    [set_solver|].
  destruct (Hcar (s2, RR_TXT name txt)) as (p2 & e2 & Hp2 & He2 & H3 & H4 & H5);
    [set_solver|].
  destruct (Hcar (s3, RR_A name a)) as (p3 & e3 & Hp3 & He3 & H6);
    [set_solver|].
  destruct (Hcar (s4, RR_AAAA name aaaa)) as (p4 & e4 & Hp4 & He4 & H7 & H8);
    [set_solver|].
  simpl in *. simplify_eq.
  exists e. unfold entry_of. rewrite Hp. auto 10.
Qed.

(** C8: after an AAAA record, the stored [AddrV6IPAddr] has the zone of
    the UDP source address of its packet when the address is link-local
    (unicast or multicast), and the empty zone otherwise. *)
Theorem aaaa_zone_from_source from st inp name aaaa st' inp' :
  wf st ->
  answer_step from (st, inp) (RR_AAAA name aaaa) = (st', inp') ->
  exists e,
    entry_of st' name = Some e
    /\ AddrV6IPAddr e
       = Some (mkIPAddr aaaa
                 (if IsLinkLocalUnicast aaaa || IsLinkLocalMulticast aaaa
                  then udp_Zone from else "")).
Proof.
  intros Hwf Hstep.
  destruct (answer_step_key from st inp (RR_AAAA name aaaa) st' inp' name
              Hwf eq_refl Hstep) as (p & _ & Hp & He).
  eexists. unfold entry_of. rewrite Hp. split; [exact He|]. reflexivity.
Qed.

Lemma insert_slot_bound st k k' :
  is_Some (inprogress st !! k') ->
  <[k := slot_of st k]> (inprogress st) !! k' = inprogress st !! k'.
Proof.
  intros [q Hq]. destruct (decide (k = k')) as [->|Hne].
  - unfold slot_of. rewrite Hq. simpl. by rewrite lookup_insert_eq.
  - by apply lookup_insert_ne.
Qed.

Lemma answer_step_shared from st inp rr st' inp' name target :
  shared st name target -> keeps_alias name target rr ->
  answer_step from (st, inp) rr = (st', inp') ->
  shared st' name target.
Proof.
  intros (p & Hn & Ht) Hkeep.
  destruct (rr_key rr) as [k|] eqn:Hk.
  2:{ rewrite answer_step_other by done. intros [= <- <-]. by exists p. }
  rewrite (answer_step_eq _ _ _ _ k Hk). intros [= <- <-]. simpl.
  exists p.
  assert (forall k0, <[k0 := slot_of st k0]> (inprogress st) !! name = Some p
                     /\ <[k0 := slot_of st k0]> (inprogress st) !! target = Some p)
    as Hins.
  { intros k0. rewrite !insert_slot_bound by eauto. by split. }
  destruct rr as [h t|h t port|h Txt|h a|h aaaa|h]; simpl in *;
    try (injection Hk as <-; apply Hins); try discriminate.
  injection Hk as <-.
  destruct (String.eqb_spec t h) as [->|Hne]; [apply Hins|].
  destruct (Hins h) as [Hn' Ht'].
  assert ((t = name \/ t = target) \/ (t <> name /\ t <> target)) as Hcase
    by (destruct (decide (t = name)), (decide (t = target)); auto).
  destruct Hcase as [Hin|[H1 H2]].
  - assert (slot_of st h = p) as Hslot
      by (destruct (Hkeep Hin) as [->| ->]; unfold slot_of;
          [by rewrite Hn|by rewrite Ht]).
    rewrite Hslot in *. rewrite !(lookup_insert _ t).
    split; case_decide; auto.
  - by rewrite !(lookup_insert_ne _ t).
Qed.

Lemma answers_shared from name target rrs : forall st inp st' inp',
  shared st name target -> Forall (keeps_alias name target) rrs ->
  fold_left (answer_step from) rrs (st, inp) = (st', inp') ->
  shared st' name target.
Proof.
  induction rrs as [|rr rrs IH]; simpl; intros st inp st' inp' Hs Hall Hrun.
  - by injection Hrun as <- <-.
  - destruct (answer_step from (st, inp) rr) as [st1 inp1] eqn:Hstep.
    apply Forall_cons in Hall as [Hrr Hall].
    apply (IH st1 inp1 st' inp'); [|done|done].
    by apply (answer_step_shared from st inp rr st1 inp1).
Qed.

Lemma handle_msg_table pkg net c st m ready st' out w :
  handle_msg pkg net c st m ready = (st', out, w) ->
  inprogress st' = inprogress (process_answers (src m) st (records_of m)).1.
Proof.
  intros H.
  destruct (handle_msg_cases _ _ _ _ _ _ _ _ _ H) as (st1 & inp & Hrun & _ & Hc).
  rewrite Hrun. simpl.
  destruct inp as [p|]; [|by destruct Hc as [-> _]]. cbv zeta in Hc.
  destruct (deref (modify st1 p (set_SrcIP (udp_IP (src m)))) p) as [e|];
    [destruct (sent e)|]; by destruct Hc as [-> _].
Qed.

Lemma handle_msg_shared pkg net c st m ready st' out w name target :
  shared st name target -> Forall (keeps_alias name target) (records_of m) ->
  handle_msg pkg net c st m ready = (st', out, w) ->
  shared st' name target.
Proof.
  intros Hs Hall H. unfold shared.
  rewrite (handle_msg_table _ _ _ _ _ _ _ _ _ H).
  destruct (process_answers (src m) st (records_of m)) as [st1 inp] eqn:Hrun.
  by apply (answers_shared (src m) name target (records_of m) st None st1 inp).
Qed.

Lemma correlate_shared pkg net c finish name target arrivals :
  forall st st' out w,
  shared st name target ->
  Forall (fun t => keeps_alias name target t.2) (tagged arrivals) ->
  correlate pkg net c finish st arrivals = (st', out, w) ->
  shared st' name target.
Proof.
  induction arrivals as [|a arrivals IH]; intros st st' out w Hs Hall H;
    simpl in H.
  - by injection H as <- <- <-.
  - destruct ((at_ns a <? finish)%Z || negb (timer_first a));
      [|by injection H as <- <- <-].
    destruct (handle_msg pkg net c st (resp a) (consumer_ready a))
      as [[st1 out1] w1] eqn:Hm.
    destruct (correlate pkg net c finish st1 arrivals) as [[st2 out2] w2] eqn:Hc.
    injection H as <- <- <-.
    rewrite tagged_cons in Hall. apply Forall_app in Hall as [Hall1 Hall2].
    assert (Forall (keeps_alias name target) (records_of (resp a))) as Hrec.
    { apply Forall_forall. intros r Hr.
      apply (proj1 (Forall_forall _ _) Hall1 (src (resp a), r)).
      by apply list_elem_of_fmap_2. }
    apply (IH st1 st2 out2 w2); [|done|done].
    apply (handle_msg_shared pkg net c st (resp a) (consumer_ready a)
             st1 out1 w1 name target Hs); [exact Hrec|exact Hm].
Qed.

(** C6, as the code has it: after a message with an SRV record whose
    target differs from its name, the record name and the target are bound
    to one object, and they stay bound to it through the rest of that
    message and through every later message, as long as no SRV record under
    a third name has one of the two as its target (such a record rebinds
    that name to the third name's entry); while that holds an assignment
    made under either key is read back under both. *)
Theorem srv_alias_shared_until_rebound pkg net c finish st m ready pre post
    name target port st1 out1 w1 arrivals st2 out2 w2 :
  wf st -> target <> name ->
  records_of m = (pre ++ RR_SRV name target port :: post)%list ->
  Forall (keeps_alias name target) post ->
  handle_msg pkg net c st m ready = (st1, out1, w1) ->
  Forall (fun t => keeps_alias name target t.2) (tagged arrivals) ->
  correlate pkg net c finish st1 arrivals = (st2, out2, w2) ->
  exists p e,
    inprogress st2 !! name = Some p
    /\ inprogress st2 !! target = Some p
    /\ deref st2 p = Some e
    /\ forall k f, k = name \/ k = target ->
         entry_of (assign_under st2 k f) name = Some (f e)
         /\ entry_of (assign_under st2 k f) target = Some (f e).
Proof.
  intros Hwf Hne Hrec Hpost Hm Hlater Hrun.
  assert (shared st1 name target) as Hs1.
  { unfold shared. rewrite (handle_msg_table _ _ _ _ _ _ _ _ _ Hm).
    unfold process_answers. rewrite Hrec, fold_left_app. simpl.
    destruct (fold_left (answer_step (src m)) pre (st, None)) as [sa ia].
    destruct (answer_step (src m) (sa, ia) (RR_SRV name target port))
      as [sb ib] eqn:Hstep.
    destruct (fold_left (answer_step (src m)) post (sb, ib)) as [sc ic] eqn:Hc.
    simpl.
    apply (answers_shared (src m) name target post sb ib sc ic); [|done|done].
    rewrite (answer_step_eq (src m) sa ia (RR_SRV name target port) name eq_refl)
      in Hstep.
    injection Hstep as <- <-. exists (slot_of sa name). simpl.
    destruct (String.eqb_spec target name) as [?|_]; [done|].
    split; [rewrite lookup_insert_ne by done|]; apply lookup_insert_eq. }
  pose proof (handle_msg_wf _ _ _ _ _ _ _ _ _ Hwf Hm) as Hwf1.
  pose proof (correlate_wf _ _ _ _ _ _ _ _ _ Hwf1 Hrun) as Hwf2.
  destruct (correlate_shared _ _ _ _ _ _ _ _ _ _ _ Hs1 Hlater Hrun)
    as (p & Hp & Ht).
  destruct (deref_lt_Some st2 p (Hwf2 name p Hp)) as [e He].
  exists p, e. do 3 (split; [done|]).
  intros k f Hk. unfold assign_under.
  assert (ensureName st2 k = (st2, p)) as ->
    by (destruct Hk as [->| ->]; by apply ensureName_old).
  unfold entry_of. rewrite inprogress_modify, Hp, Ht.
  by rewrite (deref_modify_eq _ _ _ _ He).
Qed.

(** C9: [alias] binds [dst] to the entry of [src], which is what it was
    (or a new, blank entry when [src] had none); an entry [dst] had of its
    own keeps its fields, is bound to no new key, and is no longer bound
    to [dst]. *)
Theorem alias_rebinds_dst st src dst :
  wf st -> src <> dst ->
  exists p,
    inprogress (alias st src dst) !! src = Some p
    /\ inprogress (alias st src dst) !! dst = Some p
    /\ deref (alias st src dst) p
       = Some (default (new_entry src) (entry_of st src))
    /\ forall q e,
         inprogress st !! dst = Some q -> q <> p -> deref st q = Some e ->
         deref (alias st src dst) q = Some e
         /\ (forall k, inprogress (alias st src dst) !! k = Some q ->
                       k <> dst /\ inprogress st !! k = Some q)
         /\ ((forall k, inprogress st !! k = Some q -> k = dst) ->
             forall k, inprogress (alias st src dst) !! k <> Some q).
Proof.
  intros Hwf Hne. rewrite alias_eq. simpl.
  exists (slot_of st src).
  split; [rewrite lookup_insert_ne by done; apply lookup_insert_eq|].
  split; [apply lookup_insert_eq|].
  split; [unfold deref; simpl; by apply heap_with_slot|].
  intros q e Hq Hqp He.
  assert (forall k,
    <[dst:=slot_of st src]> (<[src:=slot_of st src]> (inprogress st)) !! k
      = Some q -> k <> dst /\ inprogress st !! k = Some q) as Hkeys.
  { intros k. rewrite !lookup_insert. repeat case_decide; subst;
      intros Hk; simplify_eq; done. }
  split; [unfold deref; simpl; by apply heap_with_old|].
  split; [exact Hkeys|].
  intros Hown k Hk. apply Hkeys in Hk as [Hkd Hk]. by apply Hown in Hk.
Qed.

Lemma handle_msg_sent pkg net c st m ready st' out w :
  handle_msg pkg net c st m ready = (st', out, w) ->
  (forall q, is_sent st q -> is_sent st' q)
  /\ (forall p, p ∈ out -> out = [p] /\ ~ is_sent st p /\ is_sent st' p).
Proof.
  intros H.
  destruct (handle_msg_cases _ _ _ _ _ _ _ _ _ H) as (st1 & inp & Hrun & _ & Hc).
  assert (forall q, is_sent st q -> is_sent st1 q) as Hmono1.
  { intros q (e & Hq & Hs).
    destruct (answers_old _ _ _ _ _ _ _ _ Hrun Hq) as (e1 & Hq1 & _ & _ & Hs1).
    exists e1. split; [done|congruence]. }
  destruct inp as [p|].
  2:{ destruct Hc as [-> ->]. split; [done|]. intros p Hp.
      by apply elem_of_nil in Hp. }
  cbv zeta in Hc.
  assert (forall q, is_sent st1 q ->
            is_sent (modify st1 p (set_SrcIP (udp_IP (src m)))) q) as Hmono2.
  { intros q (e & Hq & Hs). destruct (decide (p = q)) as [->|Hne].
    - exists (set_SrcIP (udp_IP (src m)) e).
      by rewrite (deref_modify_eq _ _ _ _ Hq).
    - exists e. by rewrite deref_modify_ne. }
  destruct (deref (modify st1 p (set_SrcIP (udp_IP (src m)))) p)
    as [e|] eqn:He.
  2:{ destruct Hc as [-> ->]. split; [auto|]. intros q Hq.
      by apply elem_of_nil in Hq. }
  destruct (sent e) eqn:Hs.
  { destruct Hc as [-> ->]. split; [auto|]. intros q Hq.
    by apply elem_of_nil in Hq. }
  destruct Hc as [-> ->]. split.
  - intros q Hq. apply Hmono1, Hmono2 in Hq as (e2 & Hq2 & Hs2).
    destruct (decide (p = q)) as [->|Hne].
    + exists (set_sent true e2). by rewrite (deref_modify_eq _ _ _ _ Hq2).
    + exists e2. by rewrite deref_modify_ne.
  - intros q Hq. destruct ready; [|by apply elem_of_nil in Hq].
    apply list_elem_of_singleton in Hq as ->. split; [done|]. split.
    + intros Hsent. apply Hmono1, Hmono2 in Hsent as (e2 & Hq2 & Hs2).
      congruence.
    + exists (set_sent true e). by rewrite (deref_modify_eq _ _ _ _ He).
Qed.

Lemma correlate_sent pkg net c finish arrivals : forall st st' out w,
  correlate pkg net c finish st arrivals = (st', out, w) ->
  NoDup out
  /\ (forall q, is_sent st q -> is_sent st' q)
  /\ (forall p, p ∈ out -> ~ is_sent st p).
Proof.
  induction arrivals as [|a arrivals IH]; simpl; intros st st' out w H.
  - injection H as <- <- <-. split; [constructor|]. split; [done|].
    intros p Hp. by apply elem_of_nil in Hp.
  - destruct ((at_ns a <? finish)%Z || negb (timer_first a)).
    2:{ injection H as <- <- <-. split; [constructor|]. split; [done|].
        intros p Hp. by apply elem_of_nil in Hp. }
    destruct (handle_msg pkg net c st (resp a) (consumer_ready a))
      as [[st1 out1] w1] eqn:Hm.
    destruct (correlate pkg net c finish st1 arrivals) as [[st2 out2] w2] eqn:Hc.
    injection H as <- <- <-.
    destruct (handle_msg_sent _ _ _ _ _ _ _ _ _ Hm) as [Hmono1 Hout1].
    destruct (IH _ _ _ _ Hc) as (Hnd2 & Hmono2 & Hout2).
    split; [|split].
    + apply NoDup_app. split; [|split; [|done]].
      * destruct out1 as [|p out1]; [constructor|].
        destruct (Hout1 p) as ([= ->] & _); [by left|].
        apply NoDup_singleton.
      * intros p Hp Hp2. destruct (Hout1 p Hp) as (_ & _ & Hs).
        by apply (Hout2 p).
    + auto.
    + intros p Hp. apply elem_of_app in Hp as [Hp|Hp].
      * by destruct (Hout1 p Hp) as (_ & Hns & _).
      * intros Hs. by apply (Hout2 p Hp), Hmono1.
Qed.

(** C5: whatever messages arrive, no entry is sent on the output channel
    twice by one run of [query]. *)
Theorem entry_sent_at_most_once pkg net c params arrivals :
  NoDup (out_emitted (query pkg net c params arrivals)).
Proof.
  unfold query.
  destruct (dispatch pkg net c params) as [[err|] wd]; simpl; [constructor|].
  destruct (correlate pkg net c (finish_after params) empty_store arrivals)
    as [[st out] w] eqn:Hc.
  simpl. by destruct (correlate_sent _ _ _ _ _ _ _ _ _ Hc) as (Hnd & _).
Qed.


(** The loop of [QueryContext] leaves the slice as it found it. *)
Lemma range_defaults_id params : range_defaults params = params.
Proof. induction params as [|par params IH]; simpl; by f_equal. Qed.

Lemma QueryContext_query pkg net params c arrivals :
  QueryContext pkg net params c arrivals = query pkg net c params arrivals.
Proof. unfold QueryContext. by rewrite range_defaults_id. Qed.

(** C1, on the code: a parameter with an empty [Domain] and a zero
    [Timeout] reaches [query] as it was given, and the question built for
    it names the empty domain, not "local". *)
Theorem defaults_not_dispatched pkg net c arrivals :
  let par := mkQueryParam "_http._tcp" "" 0%Z false false false in
  QueryContext pkg net [par] c arrivals = query pkg net c [par] arrivals
  /\ question_for pkg par
     = mkMsg [mkQuestion
                (trimDot pkg "_http._tcp" ++ "." ++ trimDot pkg "" ++ ".")%string
                TypePTR ClassINET]
         false [] [].
Proof. split; [apply QueryContext_query|reflexivity]. Qed.

(** C2, on the code: with the four sockets bound and the interface set,
    [newClient] starts [recv] on the two IPv4 sockets only; the IPv6
    sockets stay in the client without a reader, and what the reader
    tasks push on the channel is what is read on the IPv4 sockets. *)
Theorem no_reader_for_ipv6_sockets pack unpack write traffic :
  let net :=
    mkNet (Some 1) (Some 2) (Some 3) (Some 4) (fun _ => None)
      pack unpack write in
  newClient net true true
  = Returns
      (mkNewClient (Some (mkClient true true (Some 1) (Some 2) (Some 3) (Some 4)))
         None [Some 1; Some 3])
  /\ (fun l => recv net l traffic) <$> readers (newClient net true true)
     = [recv_loop net (traffic 1); recv_loop net (traffic 3)].
Proof. split; reflexivity. Qed.

(** C3, on the code: when only the IPv6 multicast bind fails, IPv6 is not
    disabled: the client is built with IPv6 enabled, its IPv6 unicast
    socket and a nil IPv6 multicast socket.  [SetInterface] then either
    fails on one of the three bound sockets, and that client is returned
    with the error, or reaches the nil socket and panics; in no case is a
    client with IPv4 alone returned. *)
Theorem ipv6_kept_without_multicast smi pack unpack write :
  let net := mkNet (Some 1) (Some 2) (Some 3) None smi pack unpack write in
  let kept := mkClient true true (Some 1) (Some 2) (Some 3) None in
  newClient net true true
  = match smi 1 with
    | Some err => Returns (mkNewClient (Some kept) (Some err) [])
    | None =>
        match smi 3 with
        | Some err => Returns (mkNewClient (Some kept) (Some err) [])
        | None =>
            match smi 2 with
            | Some err => Returns (mkNewClient (Some kept) (Some err) [])
            | None => Panics
            end
        end
    end.
Proof.
  cbv zeta. unfold newClient, SetInterface, set_multicast_interface. simpl.
  by destruct (smi 1), (smi 3), (smi 2).
Qed.

(** C4, on the code: with [Timeout] one second, a message that arrives
    one and a half seconds after the timer was armed is still handled and
    its entry sent; the window is two seconds whatever the parameters. *)
Theorem window_ignores_Timeout pkg c pick :
  let net :=
    mkNet None None None None (fun _ => None) (fun _ => None)
      (fun _ => None) (fun _ _ _ => None) in
  let par := DefaultParams "_http._tcp" in
  let late :=
    mkArrival 1500000000%Z
      (mkMsgAddr
         (mkMsg [] false
            [RR_PTR "_http._tcp.local." "node1._http._tcp.local."] [])
         (mkUDPAddr [10; 0; 0; 5]%Z 5353%Z ""))
      true pick in
  Timeout par = Second
  /\ finish_after [par] = (2 * Second)%Z
  /\ out_err (query pkg net c [par] [late]) = None
  /\ out_emitted (query pkg net c [par] [late]) = [0].
Proof.
  cbv zeta. split; [done|]. split; [done|].
  unfold query, dispatch, sendQuery, write_to. simpl.
  by destruct (ipv4UnicastConn c), (ipv6UnicastConn c).
Qed.

(** ** The theorems at concrete inputs *)

Lemma wf_process_answers from st rrs :
  wf st -> wf (process_answers from st rrs).1.
Proof.
  intros Hwf. destruct (process_answers from st rrs) as [st' inp] eqn:H.
  by destruct (answers_wf _ _ _ _ _ _ Hwf (valid_None st) H).
Qed.

Lemma merge_order_independent_witness :
  exists e,
    entry_of (correlate ex_pkg ex_net ex_client (2 * Second)%Z empty_store
                ex_arrivals).1.1 ex_node = Some e
    /\ Host e = "node1.local." /\ Port e = 8080%Z
    /\ Info e = "v=1|path=/" /\ AddrV4 e = [10; 0; 0; 5]%Z
    /\ AddrV6IPAddr e = Some (mkIPAddr ex_ll "eth0").
Proof.
  destruct (merge_order_independent ex_pkg ex_net ex_client (2 * Second)%Z
              empty_store ex_arrivals
              (correlate ex_pkg ex_net ex_client (2 * Second)%Z empty_store
                 ex_arrivals).1.1
              (correlate ex_pkg ex_net ex_client (2 * Second)%Z empty_store
                 ex_arrivals).1.2
              (correlate ex_pkg ex_net ex_client (2 * Second)%Z empty_store
                 ex_arrivals).2
              ex_node "node1.local." 8080%Z ["v=1"; "path=/"]
              [10; 0; 0; 5]%Z ex_ll ex_src ex_src ex_src ex_src)
    as (e & He & H1 & H2 & H3 & _ & _ & H4 & _ & H5).
  - exact wf_empty.
  - repeat constructor.
  - vm_compute. solve_Permutation.
  - vm_compute. reflexivity.
  - exists e. repeat split; assumption.
Defined.

Lemma aaaa_zone_from_source_witness :
  exists e,
    entry_of (answer_step ex_src (empty_store, None) (RR_AAAA ex_node ex_ll)).1
      ex_node = Some e
    /\ AddrV6IPAddr e = Some (mkIPAddr ex_ll "eth0").
Proof.
  apply (aaaa_zone_from_source ex_src empty_store None ex_node ex_ll
           (answer_step ex_src (empty_store, None) (RR_AAAA ex_node ex_ll)).1
           (answer_step ex_src (empty_store, None) (RR_AAAA ex_node ex_ll)).2).
  - exact wf_empty.
  - vm_compute. reflexivity.
Defined.

Lemma srv_alias_shared_until_rebound_witness :
  exists e,
    entry_of (correlate ex_pkg ex_net ex_client (2 * Second)%Z
                (handle_msg ex_pkg ex_net ex_client empty_store ex_alias_msg
                   true).1.1
                ex_alias_later).1.1 ex_node = Some e
    /\ entry_of (correlate ex_pkg ex_net ex_client (2 * Second)%Z
                   (handle_msg ex_pkg ex_net ex_client empty_store ex_alias_msg
                      true).1.1
                   ex_alias_later).1.1 "node1.local." = Some e.
Proof.
  destruct (srv_alias_shared_until_rebound ex_pkg ex_net ex_client
              (2 * Second)%Z empty_store ex_alias_msg true
              [RR_PTR "_http._tcp.local." ex_node] [RR_TXT ex_node ["v=1"]]
              ex_node "node1.local." 8080%Z
              (handle_msg ex_pkg ex_net ex_client empty_store ex_alias_msg
                 true).1.1
              (handle_msg ex_pkg ex_net ex_client empty_store ex_alias_msg
                 true).1.2
              (handle_msg ex_pkg ex_net ex_client empty_store ex_alias_msg
                 true).2
              ex_alias_later
              (correlate ex_pkg ex_net ex_client (2 * Second)%Z
                 (handle_msg ex_pkg ex_net ex_client empty_store ex_alias_msg
                    true).1.1 ex_alias_later).1.1
              (correlate ex_pkg ex_net ex_client (2 * Second)%Z
                 (handle_msg ex_pkg ex_net ex_client empty_store ex_alias_msg
                    true).1.1 ex_alias_later).1.2
              (correlate ex_pkg ex_net ex_client (2 * Second)%Z
                 (handle_msg ex_pkg ex_net ex_client empty_store ex_alias_msg
                    true).1.1 ex_alias_later).2)
    as (p & e & Hp & Ht & He & _).
  - exact wf_empty.
  - discriminate.
  - reflexivity.
  - repeat constructor.
  - vm_compute. reflexivity.
  - repeat constructor.
  - vm_compute. reflexivity.
  - exists e. unfold entry_of. rewrite Hp, Ht. by split.
Defined.

(** C6, as stated, fails: after the SRV record of svc1 with target host, a
    second SRV record with the same target rebinds host to the entry of
    svc2, and the address then assigned under host is not seen under
    svc1. *)
Lemma srv_alias_later_update_not_shared :
  AddrV4 <$> entry_of (process_answers ex_src empty_store ex_two_services).1
               "host.local." = Some [10; 0; 0; 5]%Z
  /\ AddrV4 <$> entry_of (process_answers ex_src empty_store ex_two_services).1
                  "svc1.local." = Some []
  /\ entry_of (process_answers ex_src empty_store ex_two_services).1
        "svc1.local."
     <> entry_of (process_answers ex_src empty_store ex_two_services).1
          "host.local.".
Proof. vm_compute. repeat split; discriminate. Qed.

Lemma alias_rebinds_dst_witness :
  exists p,
    inprogress (alias (process_answers ex_src empty_store
                         (records_of ex_two_names)).1 "a.local." "b.local.")
      !! "b.local." = Some p
    /\ deref (alias (process_answers ex_src empty_store
                       (records_of ex_two_names)).1 "a.local." "b.local.") p
       = Some (default (new_entry "a.local.")
                 (entry_of (process_answers ex_src empty_store
                              (records_of ex_two_names)).1 "a.local.")).
Proof.
  destruct (alias_rebinds_dst
              (process_answers ex_src empty_store (records_of ex_two_names)).1
              "a.local." "b.local.")
    as (p & _ & H1 & H2 & _).
  - apply wf_process_answers, wf_empty.
  - discriminate.
  - exists p. by split.
Defined.


(** * Further properties of the code *)

(** ** [ensureName] and the record switch *)

(** X1: for a name the table does not hold, [ensureName] binds it to a new
    object that has only its [Name] set; no key held that object before,
    the other keys keep their bindings and the other objects their
    fields. *)
Theorem ensureName_creates_blank st name st' p :
  wf st -> inprogress st !! name = None ->
  ensureName st name = (st', p) ->
  inprogress st' !! name = Some p
  /\ deref st' p = Some (new_entry name)
  /\ (forall k, inprogress st !! k <> Some p)
  /\ (forall k, k <> name -> inprogress st' !! k = inprogress st !! k)
  /\ (forall q e, deref st q = Some e -> deref st' q = Some e).
Proof.
  intros Hwf Habs. unfold ensureName. rewrite Habs. intros [= <- <-]. simpl.
  split; [apply lookup_insert_eq|].
  split; [unfold deref; simpl; rewrite lookup_app_r by done;
          by rewrite Nat.sub_diag|].
  split; [intros k Hk; apply Hwf in Hk; lia|].
  split; [intros k Hk; by apply lookup_insert_ne|].
  intros q e Hq. unfold deref in *; simpl. by apply lookup_app_l_Some.
Qed.

Lemma ensureName_creates_blank_witness :
  inprogress (ensureName empty_store ex_node).1 !! ex_node = Some 0
  /\ deref (ensureName empty_store ex_node).1 0 = Some (new_entry ex_node).
Proof.
  destruct (ensureName_creates_blank empty_store ex_node
              (ensureName empty_store ex_node).1 0)
    as (H1 & H2 & _).
  - exact wf_empty.
  - reflexivity.
  - reflexivity.
  - by split.
Defined.

(** X2: asking for a name a second time gives the same object and leaves
    the table and the heap as the first call left them. *)
Theorem ensureName_twice st name :
  ensureName (ensureName st name).1 name = ensureName st name.
Proof.
  rewrite (ensureName_eq st name). simpl.
  apply ensureName_old. simpl. apply lookup_insert_eq.
Qed.

(** X3: a record changes no object but the entry filed under its key. *)
Theorem record_leaves_other_entries from st inp rr st' inp' q e :
  answer_step from (st, inp) rr = (st', inp') ->
  deref st q = Some e ->
  (rr_key rr ≫= fun k => inprogress st' !! k) <> Some q ->
  deref st' q = Some e.
Proof.
  destruct (rr_key rr) as [k|] eqn:Hk.
  - rewrite (answer_step_eq _ _ _ _ k Hk). intros [= <- <-] Hq. simpl.
    rewrite (rr_table_key rr k) by done. intros Hne.
    unfold deref; simpl. rewrite list_lookup_alter_ne by congruence.
    by apply heap_with_old.
  - rewrite answer_step_other by done. by intros [= <- <-].
Qed.

Lemma record_leaves_other_entries_witness :
  deref (answer_step ex_src
           ((ensureName empty_store "a.local.").1, None)
           (RR_A "b.local." [10; 0; 0; 6]%Z)).1 0
  = Some (new_entry "a.local.").
Proof.
  apply (record_leaves_other_entries ex_src
           (ensureName empty_store "a.local.").1 None
           (RR_A "b.local." [10; 0; 0; 6]%Z)
           (answer_step ex_src ((ensureName empty_store "a.local.").1, None)
              (RR_A "b.local." [10; 0; 0; 6]%Z)).1
           (answer_step ex_src ((ensureName empty_store "a.local.").1, None)
              (RR_A "b.local." [10; 0; 0; 6]%Z)).2).
  - vm_compute. reflexivity.
  - reflexivity.
  - vm_compute. discriminate.
Defined.

(** X4: a pointer record files a blank entry under the name it points to,
    not under its own name, and makes it the current entry. *)
Theorem ptr_files_under_target from st inp hdr target st' inp' :
  inprogress st !! target = None -> hdr <> target ->
  answer_step from (st, inp) (RR_PTR hdr target) = (st', inp') ->
  entry_of st' target = Some (new_entry target)
  /\ inprogress st' !! hdr = inprogress st !! hdr
  /\ inp' = inprogress st' !! target.
Proof.
  intros Habs Hne.
  rewrite (answer_step_eq from st inp (RR_PTR hdr target) target eq_refl).
  intros [= <- <-]. unfold entry_of, deref, slot_of, heap_with. simpl.
  rewrite Habs. simpl. rewrite lookup_insert_eq.
  split.
  - rewrite list_lookup_alter_eq, lookup_app_r by done.
    by rewrite Nat.sub_diag.
  - split; [by apply lookup_insert_ne|done].
Qed.

Lemma ptr_files_under_target_witness :
  entry_of (answer_step ex_src (empty_store, None)
              (RR_PTR "_http._tcp.local." ex_node)).1 ex_node
  = Some (new_entry ex_node).
Proof.
  apply (ptr_files_under_target ex_src empty_store None "_http._tcp.local."
           ex_node
           (answer_step ex_src (empty_store, None)
              (RR_PTR "_http._tcp.local." ex_node)).1
           (answer_step ex_src (empty_store, None)
              (RR_PTR "_http._tcp.local." ex_node)).2).
  - reflexivity.
  - discriminate.
  - vm_compute. reflexivity.
Defined.

(** X5: the last record of a message always shows in the entry of its
    key, whatever records of the same kind came before it, and that entry
    is the one the message is accounted to. *)
Theorem last_record_wins from st rrs r n st' inp' :
  wf st -> rr_key r = Some n ->
  process_answers from st (rrs ++ [r]) = (st', inp') ->
  inp' = inprogress st' !! n
  /\ exists e, entry_of st' n = Some e /\ carried from r e.
Proof.
  intros Hwf Hk. unfold process_answers. rewrite fold_left_app. simpl.
  destruct (fold_left (answer_step from) rrs (st, None)) as [st1 inp1] eqn:H1.
  destruct (answers_wf _ _ _ _ _ _ Hwf (valid_None st) H1) as (Hwf1 & _ & _).
  intros Hstep.
  destruct (answer_step_key _ _ _ _ _ _ _ Hwf1 Hk Hstep) as (p & -> & Hp & He).
  split; [done|]. eexists. unfold entry_of. rewrite Hp.
  split; [exact He|]. apply carried_update.
Qed.

Lemma last_record_wins_witness :
  exists e,
    entry_of (process_answers ex_src empty_store
                ([RR_SRV ex_node "old.local." 80%Z]
                 ++ [RR_SRV ex_node "node1.local." 8080%Z])).1 ex_node
    = Some e
    /\ Host e = "node1.local." /\ Port e = 8080%Z.
Proof.
  destruct (last_record_wins ex_src empty_store
              [RR_SRV ex_node "old.local." 80%Z]
              (RR_SRV ex_node "node1.local." 8080%Z) ex_node
              (process_answers ex_src empty_store
                 ([RR_SRV ex_node "old.local." 80%Z]
                  ++ [RR_SRV ex_node "node1.local." 8080%Z])).1
              (process_answers ex_src empty_store
                 ([RR_SRV ex_node "old.local." 80%Z]
                  ++ [RR_SRV ex_node "node1.local." 8080%Z])).2)
    as (_ & e & He & Hc).
  - exact wf_empty.
  - reflexivity.
  - vm_compute. reflexivity.
  - exists e. split; [exact He|exact Hc].
Defined.

Lemma two_records_entry from st r1 r2 n :
  wf st -> rr_key r1 = Some n -> rr_key r2 = Some n ->
  entry_of (process_answers from st [r1; r2]).1 n
  = Some (rr_update from r2
            (rr_update from r1 (default (new_entry n) (entry_of st n)))).
Proof.
  intros Hwf Hk1 Hk2. unfold process_answers. simpl.
  destruct (answer_step from (st, None) r1) as [st1 inp1] eqn:H1.
  destruct (answer_step from (st1, inp1) r2) as [st2 inp2] eqn:H2.
  destruct (answer_step_wf _ _ _ _ _ _ Hwf (valid_None st) H1) as [Hwf1 _].
  destruct (answer_step_key _ _ _ _ _ _ _ Hwf Hk1 H1) as (p1 & _ & Hp1 & He1).
  destruct (answer_step_key _ _ _ _ _ _ _ Hwf1 Hk2 H2) as (p2 & _ & Hp2 & He2).
  simpl. unfold entry_of at 1. rewrite Hp2, He2.
  unfold entry_of at 1. by rewrite Hp1, He1.
Qed.

(** X6: the deprecated [Addr] field is written by A and by AAAA records
    alike, so it holds the address of whichever came last, while [AddrV4]
    and [AddrV6] do not depend on the order. *)
Theorem legacy_Addr_is_last_address from st name a aaaa :
  wf st ->
  (exists e,
     entry_of (process_answers from st [RR_A name a; RR_AAAA name aaaa]).1 name
     = Some e
     /\ Addr e = aaaa /\ AddrV4 e = a /\ AddrV6 e = aaaa)
  /\ (exists e,
        entry_of (process_answers from st [RR_AAAA name aaaa; RR_A name a]).1
          name = Some e
        /\ Addr e = a /\ AddrV4 e = a /\ AddrV6 e = aaaa).
Proof.
  intros Hwf. split; eexists;
    (split; [by apply two_records_entry|by repeat split]).
Qed.

Lemma legacy_Addr_is_last_address_witness :
  exists e,
    entry_of (process_answers ex_src empty_store
                [RR_AAAA ex_node ex_ll; RR_A ex_node [10; 0; 0; 5]%Z]).1 ex_node
    = Some e
    /\ Addr e = [10; 0; 0; 5]%Z.
Proof.
  destruct (legacy_Addr_is_last_address ex_src empty_store ex_node
              [10; 0; 0; 5]%Z ex_ll wf_empty)
    as (_ & e & He & Ha & _).
  exists e. split; [exact He|exact Ha].
Defined.

(** ** One message, further *)

Lemma answers_unmatched from rrs : forall acc,
  Forall (fun r => rr_key r = None) rrs ->
  fold_left (answer_step from) rrs acc = acc.
Proof.
  induction rrs as [|r rrs IH]; simpl; intros [st inp] Hall; [done|].
  apply Forall_cons in Hall as [Hr Hall].
  rewrite answer_step_other by done. by apply IH.
Qed.

Lemma last_touched_None rrs :
  last_touched rrs = None -> Forall (fun r => rr_key r = None) rrs.
Proof.
  unfold last_touched. intros H. apply last_None in H.
  induction rrs as [|r rrs IH]; [constructor|].
  simpl in H. destruct (rr_key r) eqn:Hr; [done|].
  constructor; auto.
Qed.

(** X7: a message none of whose records is of a type the switch knows
    changes nothing and sends nothing. *)
Theorem unmatched_message_is_ignored pkg net c st m ready :
  last_touched (records_of m) = None ->
  handle_msg pkg net c st m ready = (st, [], []).
Proof.
  intros H. apply last_touched_None in H.
  unfold handle_msg, process_answers. fold (records_of m).
  by rewrite (answers_unmatched (src m) (records_of m) (st, None) H).
Qed.

Lemma unmatched_message_is_ignored_witness :
  handle_msg ex_pkg ex_net ex_client empty_store
    (mkMsgAddr (mkMsg [] false [RR_other "x.local."] [RR_other "y.local."])
       ex_src) true
  = (empty_store, [], []).
Proof. apply unmatched_message_is_ignored. reflexivity. Defined.

(** The entry a message is accounted to, and what [handle_msg] does with
    it. *)
Lemma handle_msg_touched pkg net c st m ready st1 out w p :
  wf st ->
  handle_msg pkg net c st m ready = (st1, out, w) ->
  (last_touched (records_of m) ≫= fun k => inprogress st1 !! k) = Some p ->
  exists stp e1,
    process_answers (src m) st (records_of m) = (stp, Some p)
    /\ deref stp p = Some e1
    /\ if sent e1
       then st1 = modify stp p (set_SrcIP (udp_IP (src m))) /\ out = []
       else st1 = modify (modify stp p (set_SrcIP (udp_IP (src m)))) p
                    (set_sent true)
            /\ out = (if ready then [p] else []).
Proof.
  intros Hwf H Hp.
  destruct (handle_msg_cases _ _ _ _ _ _ _ _ _ H) as (stp & inp & Hrun & _ & Hc).
  pose proof (answers_inp _ _ _ _ _ Hrun) as Hinp.
  destruct (answers_wf _ _ _ _ _ _ Hwf (valid_None st) Hrun) as (_ & Hv & _).
  assert (inprogress st1 = inprogress stp) as Htbl.
  { destruct inp as [p0|]; [|by destruct Hc as [-> _]]. cbv zeta in Hc.
    destruct (deref (modify stp p0 (set_SrcIP (udp_IP (src m)))) p0) as [e|];
      [destruct (sent e)|]; by destruct Hc as [-> _]. }
  rewrite Htbl, <- Hinp in Hp. subst inp. cbv zeta in Hc.
  destruct (deref_lt_Some stp p (Hv p eq_refl)) as [e1 He1].
  rewrite (deref_modify_eq stp p _ e1 He1) in Hc. simpl in Hc.
  exists stp, e1. by split.
Qed.

(** X8: the entry a message is accounted to is marked as sent even when
    no receiver was ready and the send was dropped; later messages never
    send it. *)
Theorem dropped_entry_is_never_resent pkg net c finish st m st1 out1 w1 p
    rest st2 out2 w2 :
  wf st ->
  handle_msg pkg net c st m false = (st1, out1, w1) ->
  (last_touched (records_of m) ≫= fun k => inprogress st1 !! k) = Some p ->
  correlate pkg net c finish st1 rest = (st2, out2, w2) ->
  out1 = [] /\ is_sent st1 p /\ p ∉ out2.
Proof.
  intros Hwf H Hp Hrest.
  destruct (handle_msg_touched _ _ _ _ _ _ _ _ _ _ Hwf H Hp)
    as (stp & e1 & _ & He1 & Hc).
  assert (out1 = [] /\ is_sent st1 p) as [-> Hs].
  { destruct (sent e1) eqn:Hs1; destruct Hc as [-> ->]; (split; [done|]).
    - exists (set_SrcIP (udp_IP (src m)) e1).
      by rewrite (deref_modify_eq _ _ _ _ He1).
    - exists (set_sent true (set_SrcIP (udp_IP (src m)) e1)).
      split; [|done]. apply deref_modify_eq. by apply deref_modify_eq. }
  split; [done|]. split; [done|].
  destruct (correlate_sent _ _ _ _ _ _ _ _ _ Hrest) as (_ & _ & Hout).
  intros Hin. by apply (Hout p).
Qed.

Lemma dropped_entry_is_never_resent_witness :
  1 ∉ (correlate ex_pkg ex_net ex_client (2 * Second)%Z
         (handle_msg ex_pkg ex_net ex_client empty_store ex_two_names
            false).1.1
         ex_arrivals).1.2.
Proof.
  destruct (dropped_entry_is_never_resent ex_pkg ex_net ex_client
              (2 * Second)%Z empty_store ex_two_names
              (handle_msg ex_pkg ex_net ex_client empty_store ex_two_names
                 false).1.1
              (handle_msg ex_pkg ex_net ex_client empty_store ex_two_names
                 false).1.2
              (handle_msg ex_pkg ex_net ex_client empty_store ex_two_names
                 false).2
              1 ex_arrivals
              (correlate ex_pkg ex_net ex_client (2 * Second)%Z
                 (handle_msg ex_pkg ex_net ex_client empty_store ex_two_names
                    false).1.1 ex_arrivals).1.1
              (correlate ex_pkg ex_net ex_client (2 * Second)%Z
                 (handle_msg ex_pkg ex_net ex_client empty_store ex_two_names
                    false).1.1 ex_arrivals).1.2
              (correlate ex_pkg ex_net ex_client (2 * Second)%Z
                 (handle_msg ex_pkg ex_net ex_client empty_store ex_two_names
                    false).1.1 ex_arrivals).2)
    as (_ & _ & H).
  - exact wf_empty.
  - vm_compute. reflexivity.
  - vm_compute. reflexivity.
  - vm_compute. reflexivity.
  - exact H.
Defined.

(** X9: when a receiver is ready, a message whose entry has not been sent
    before sends exactly that entry and marks it. *)
Theorem unsent_entry_is_emitted pkg net c st m st1 out w p :
  wf st ->
  handle_msg pkg net c st m true = (st1, out, w) ->
  (last_touched (records_of m) ≫= fun k => inprogress st1 !! k) = Some p ->
  ~ is_sent st p ->
  out = [p] /\ is_sent st1 p.
Proof.
  intros Hwf H Hp Hns.
  destruct (handle_msg_touched _ _ _ _ _ _ _ _ _ _ Hwf H Hp)
    as (stp & e1 & Hrun & He1 & Hc).
  assert (sent e1 = false) as Hs1.
  { destruct (decide (p < length (heap st))) as [Hlt|Hge].
    - destruct (deref_lt_Some _ _ Hlt) as [e He].
      destruct (answers_old _ _ _ _ _ _ _ _ Hrun He) as (e' & He' & _ & _ & Hs).
      rewrite He1 in He'. injection He' as <-. rewrite Hs.
      destruct (sent e) eqn:Hse; [|done]. destruct Hns. by exists e.
    - apply (answers_fresh (src m) (records_of m) st None stp (Some p) p e1
               Hrun); [lia|done]. }
  rewrite Hs1 in Hc. destruct Hc as [-> ->]. split; [done|].
  exists (set_sent true (set_SrcIP (udp_IP (src m)) e1)).
  split; [|done]. apply deref_modify_eq. by apply deref_modify_eq.
Qed.

Lemma unsent_entry_is_emitted_witness :
  (handle_msg ex_pkg ex_net ex_client empty_store ex_two_names true).1.2 = [1].
Proof.
  destruct (unsent_entry_is_emitted ex_pkg ex_net ex_client empty_store
              ex_two_names
              (handle_msg ex_pkg ex_net ex_client empty_store ex_two_names
                 true).1.1
              (handle_msg ex_pkg ex_net ex_client empty_store ex_two_names
                 true).1.2
              (handle_msg ex_pkg ex_net ex_client empty_store ex_two_names
                 true).2 1)
    as (H & _).
  - exact wf_empty.
  - vm_compute. reflexivity.
  - vm_compute. reflexivity.
  - intros (e & He & _). discriminate He.
  - exact H.
Defined.

(** ** The correlation loop and [query], further *)

Lemma correlate_emitted pkg net c finish arrivals : forall st st' out w,
  correlate pkg net c finish st arrivals = (st', out, w) ->
  length out <= length arrivals
  /\ w = []
  /\ forall p, p ∈ out -> is_sent st' p.
Proof.
  induction arrivals as [|a arrivals IH]; simpl; intros st st' out w H.
  - injection H as <- <- <-. split; [done|]. split; [done|].
    intros p Hp. by apply elem_of_nil in Hp.
  - destruct ((at_ns a <? finish)%Z || negb (timer_first a)).
    2:{ injection H as <- <- <-. split; [simpl; lia|]. split; [done|].
        intros p Hp. by apply elem_of_nil in Hp. }
    destruct (handle_msg pkg net c st (resp a) (consumer_ready a))
      as [[st1 out1] w1] eqn:Hm.
    destruct (correlate pkg net c finish st1 arrivals) as [[st2 out2] w2] eqn:Hc.
    injection H as <- <- <-.
    destruct (handle_msg_sent _ _ _ _ _ _ _ _ _ Hm) as [_ Hout1].
    destruct (handle_msg_cases _ _ _ _ _ _ _ _ _ Hm) as (_ & _ & _ & -> & _).
    destruct (IH _ _ _ _ Hc) as (Hlen & -> & Hout2).
    destruct (correlate_sent _ _ _ _ _ _ _ _ _ Hc) as (_ & Hmono & _).
    split; [|split; [done|]].
    + rewrite length_app.
      destruct out1 as [|p out1]; simpl; [lia|].
      destruct (Hout1 p) as ([= ->] & _); [by left|]. simpl. lia.
    + intros p Hp. apply elem_of_app in Hp as [Hp|Hp]; [|auto].
      apply Hmono. by destruct (Hout1 p Hp) as (_ & _ & Hs).
Qed.

(** X10: every entry [query] sent on the channel is, in the final store,
    an allocated object whose [sent] flag is set. *)
Theorem emitted_entries_are_marked_sent pkg net c params arrivals :
  Forall (fun p =>
            exists e,
              deref (out_store (query pkg net c params arrivals)) p = Some e
              /\ sent e = true)
    (out_emitted (query pkg net c params arrivals)).
Proof.
  unfold query.
  destruct (dispatch pkg net c params) as [[err|] wd]; simpl; [constructor|].
  destruct (correlate pkg net c (finish_after params) empty_store arrivals)
    as [[st out] w] eqn:Hc.
  simpl. apply Forall_forall. intros p Hp.
  by apply (correlate_emitted _ _ _ _ _ _ _ _ _ Hc).
Qed.

(** X11: at most one entry is sent per message taken from the channel. *)
Theorem at_most_one_entry_per_message pkg net c params arrivals :
  length (out_emitted (query pkg net c params arrivals)) <= length arrivals.
Proof.
  unfold query.
  destruct (dispatch pkg net c params) as [[err|] wd]; simpl; [lia|].
  destruct (correlate pkg net c (finish_after params) empty_store arrivals)
    as [[st out] w] eqn:Hc.
  simpl. by apply (correlate_emitted _ _ _ _ _ _ _ _ _ Hc).
Qed.

Lemma correlate_cut pkg net c finish a l2 l1 : forall st,
  (finish <= at_ns a)%Z -> timer_first a = true ->
  correlate pkg net c finish st (l1 ++ a :: l2)
  = correlate pkg net c finish st l1.
Proof.
  induction l1 as [|b l1 IH]; intros st Ha Ht; simpl.
  - apply Z.ltb_ge in Ha. by rewrite Ha, Ht.
  - destruct ((at_ns b <? finish)%Z || negb (timer_first b)); [|done].
    destruct (handle_msg pkg net c st (resp b) (consumer_ready b))
      as [[st1 out1] w1].
    by rewrite IH.
Qed.

(** X12: once the timer has fired and the select takes the timer case,
    [query] returns: the message that was ready at that select is not
    handled, nor is any message behind it, and the result is that of the
    messages before it. *)
Theorem arrivals_after_deadline_ignored pkg net c params l1 a l2 :
  (2 * Second <= at_ns a)%Z -> timer_first a = true ->
  query pkg net c params (l1 ++ a :: l2) = query pkg net c params l1.
Proof.
  intros Ha Ht. unfold query, finish_after.
  by rewrite correlate_cut.
Qed.

Lemma arrivals_after_deadline_ignored_witness :
  query ex_pkg ex_net ex_client [DefaultParams "_http._tcp"]
    (ex_arrivals
     ++ mkArrival 2000000000%Z ex_two_names true true :: ex_arrivals)
  = query ex_pkg ex_net ex_client [DefaultParams "_http._tcp"] ex_arrivals.
Proof.
  apply arrivals_after_deadline_ignored; [vm_compute; discriminate|reflexivity].
Defined.

(** X13: the datagrams [query] writes are those of the initial dispatch;
    with [complete] always true the follow-up query for an incomplete
    entry is never sent. *)
Theorem no_follow_up_query pkg net c params arrivals :
  out_wire (query pkg net c params arrivals) = (dispatch pkg net c params).2.
Proof.
  unfold query.
  destruct (dispatch pkg net c params) as [[err|] wd]; simpl; [done|].
  destruct (correlate pkg net c (finish_after params) empty_store arrivals)
    as [[st out] w] eqn:Hc.
  simpl. destruct (correlate_emitted _ _ _ _ _ _ _ _ _ Hc) as (_ & -> & _).
  apply app_nil_r.
Qed.

Lemma wire_of_cons pkg net c par params :
  wire_of pkg net c (par :: params)
  = ((sendQuery pkg net c (question_for pkg par)).2
     ++ wire_of pkg net c params)%list.
Proof. reflexivity. Qed.

Lemma dispatch_ok pkg net c params :
  Forall (fun par => (sendQuery pkg net c (question_for pkg par)).1 = None)
    params ->
  dispatch pkg net c params = (None, wire_of pkg net c params).
Proof.
  induction params as [|par params IH]; intros Hall; [done|].
  apply Forall_cons in Hall as [Hpar Hall].
  rewrite wire_of_cons. simpl.
  destruct (sendQuery pkg net c (question_for pkg par)) as [r w] eqn:Hs.
  simpl in Hpar. subst r. by rewrite (IH Hall).
Qed.

Lemma dispatch_stops pkg net c l1 par l2 err w :
  Forall (fun par => (sendQuery pkg net c (question_for pkg par)).1 = None) l1 ->
  sendQuery pkg net c (question_for pkg par) = (Some err, w) ->
  dispatch pkg net c (l1 ++ par :: l2)
  = (Some err, (wire_of pkg net c l1 ++ w)%list).
Proof.
  induction l1 as [|p0 l1 IH]; intros Hall Hs.
  - simpl. by rewrite Hs.
  - apply Forall_cons in Hall as [Hp0 Hall].
    rewrite wire_of_cons. simpl.
    destruct (sendQuery pkg net c (question_for pkg p0)) as [r w0] eqn:Hs0.
    simpl in Hp0. subst r. rewrite (IH Hall Hs). simpl.
    by rewrite app_assoc.
Qed.

(** X14: when the send for one parameter fails, [Query] returns that
    error at once: the datagrams sent are those of the parameters before
    it and those the failing send got out before its error, nothing is
    sent for the parameters after it, no message is taken from the
    channel and no entry is sent. *)
Theorem Query_stops_at_first_send_error pkg net c l1 par l2 err w arrivals :
  Forall (fun par => (sendQuery pkg net c (question_for pkg par)).1 = None) l1 ->
  sendQuery pkg net c (question_for pkg par) = (Some err, w) ->
  Query pkg net (l1 ++ par :: l2) c arrivals
  = mkOutcome (Some err) [] empty_store (wire_of pkg net c l1 ++ w)%list.
Proof.
  intros Hall Hs. unfold Query. rewrite QueryContext_query. unfold query.
  by rewrite (dispatch_stops pkg net c l1 par l2 err w Hall Hs).
Qed.

Lemma Query_stops_at_first_send_error_witness :
  out_err (Query ex_pkg ex_net_badwrite
             ([DefaultParams "_http._tcp"]
              ++ mkQueryParam "x" "bad" Second false false false
                 :: [DefaultParams "_ipp._tcp"])
             ex_client ex_arrivals) = Some "unreachable"
  /\ length (out_wire (Query ex_pkg ex_net_badwrite
                         ([DefaultParams "_http._tcp"]
                          ++ mkQueryParam "x" "bad" Second false false false
                             :: [DefaultParams "_ipp._tcp"])
                         ex_client ex_arrivals)) = 3.
Proof.
  rewrite (Query_stops_at_first_send_error ex_pkg ex_net_badwrite ex_client
             [DefaultParams "_http._tcp"]
             (mkQueryParam "x" "bad" Second false false false)
             [DefaultParams "_ipp._tcp"] "unreachable"
             [(1, question_for ex_pkg
                    (mkQueryParam "x" "bad" Second false false false),
               ipv4Addr ex_pkg)]
             ex_arrivals).
  - split; reflexivity.
  - repeat constructor.
  - reflexivity.
Defined.

(** X15: [Query] returns nil exactly when the send succeeds for every
    parameter; there is no other source of error. *)
Theorem Query_succeeds_iff_all_sent pkg net c params arrivals :
  out_err (Query pkg net params c arrivals) = None
  <-> Forall (fun par => (sendQuery pkg net c (question_for pkg par)).1 = None)
        params.
Proof.
  unfold Query. rewrite QueryContext_query. unfold query. split.
  - intros H. induction params as [|par params IH]; [constructor|].
    simpl in H.
    destruct (sendQuery pkg net c (question_for pkg par)) as [[e|] w0] eqn:Hs;
      [done|].
    constructor; [by rewrite Hs|]. apply IH.
    destruct (dispatch pkg net c params) as [[e|] wd]; [done|].
    by destruct (correlate pkg net c (finish_after params) empty_store arrivals)
      as [[? ?] ?].
  - intros Hall. rewrite (dispatch_ok _ _ _ _ Hall).
    by destruct (correlate pkg net c (finish_after params) empty_store arrivals)
      as [[? ?] ?].
Qed.

Lemma rr_table_mono rr p tbl k :
  is_Some (tbl !! k) -> is_Some (rr_table rr p tbl !! k).
Proof.
  destruct rr as [h t|name Target port|name Txt|name a|name aaaa|h]; simpl;
    try (destruct (String.eqb Target name));
    rewrite ?lookup_insert; repeat case_decide; eauto.
Qed.

Lemma answers_keys from rrs : forall st inp st' inp' k,
  fold_left (answer_step from) rrs (st, inp) = (st', inp') ->
  is_Some (inprogress st !! k) -> is_Some (inprogress st' !! k).
Proof.
  induction rrs as [|rr rrs IH]; simpl; intros st inp st' inp' k Hrun Hk.
  - by injection Hrun as <- <-.
  - destruct (answer_step from (st, inp) rr) as [st1 inp1] eqn:Hstep.
    apply (IH st1 inp1 st' inp' k Hrun).
    destruct (rr_key rr) as [k0|] eqn:Hk0.
    + rewrite (answer_step_eq _ _ _ _ k0 Hk0) in Hstep.
      injection Hstep as <- <-. simpl. by apply rr_table_mono.
    + rewrite answer_step_other in Hstep by done. by injection Hstep as <- <-.
Qed.

Lemma handle_msg_grows pkg net c st m ready st' out w :
  handle_msg pkg net c st m ready = (st', out, w) ->
  (forall k, is_Some (inprogress st !! k) -> is_Some (inprogress st' !! k))
  /\ (forall q e, deref st q = Some e ->
        exists e', deref st' q = Some e' /\ Name e' = Name e).
Proof.
  intros H.
  destruct (handle_msg_cases _ _ _ _ _ _ _ _ _ H) as (st1 & inp & Hrun & _ & Hc).
  assert (forall f g, (forall e, Name (f e) = Name e) ->
            (forall e, Name (g e) = Name e) ->
            forall p q e, deref st q = Some e ->
              (exists e', deref (modify st1 p f) q = Some e' /\ Name e' = Name e)
              /\ (exists e', deref (modify (modify st1 p f) p g) q = Some e'
                             /\ Name e' = Name e)) as Hmod.
  { intros f g Hf Hg p q e Hq.
    destruct (answers_old _ _ _ _ _ _ _ _ Hrun Hq) as (e1 & Hq1 & Hn & _).
    rewrite !deref_modify. case_decide; subst; rewrite Hq1; simpl.
    - split; eexists; (split; [done|]); rewrite ?Hg, ?Hf; done.
    - split; eexists; (split; [done|]); done. }
  destruct inp as [p|].
  2:{ destruct Hc as [-> _]. split.
      - intros k. by apply (answers_keys _ _ _ _ _ _ _ Hrun).
      - intros q e Hq.
        destruct (answers_old _ _ _ _ _ _ _ _ Hrun Hq) as (e1 & ? & ? & _).
        eauto. }
  cbv zeta in Hc.
  assert (st' = modify st1 p (set_SrcIP (udp_IP (src m)))
          \/ st' = modify (modify st1 p (set_SrcIP (udp_IP (src m)))) p
                     (set_sent true)) as Hst.
  { destruct (deref (modify st1 p (set_SrcIP (udp_IP (src m)))) p) as [e|];
      [destruct (sent e)|]; destruct Hc as [-> _]; auto. }
  split.
  - intros k Hk. apply (answers_keys _ _ _ _ _ _ _ Hrun) in Hk.
    by destruct Hst as [-> | ->].
  - intros q e Hq.
    destruct (Hmod (set_SrcIP (udp_IP (src m))) (set_sent true)
                (fun _ => eq_refl) (fun _ => eq_refl) p q e Hq) as [H1 H2].
    by destruct Hst as [-> | ->].
Qed.

(** X16: while messages are handled no name is ever removed from the
    table and no object is freed or renamed: a bound key stays bound and
    every object keeps its [Name]. *)
Theorem table_only_grows pkg net c finish arrivals : forall st st' out w,
  correlate pkg net c finish st arrivals = (st', out, w) ->
  (forall k, is_Some (inprogress st !! k) -> is_Some (inprogress st' !! k))
  /\ (forall q e, deref st q = Some e ->
        exists e', deref st' q = Some e' /\ Name e' = Name e).
Proof.
  induction arrivals as [|a arrivals IH]; simpl; intros st st' out w H.
  - injection H as <- <- <-. eauto.
  - destruct ((at_ns a <? finish)%Z || negb (timer_first a)); [|injection H as <- <- <-; eauto].
    destruct (handle_msg pkg net c st (resp a) (consumer_ready a))
      as [[st1 out1] w1] eqn:Hm.
    destruct (correlate pkg net c finish st1 arrivals) as [[st2 out2] w2] eqn:Hc.
    injection H as <- <- <-.
    destruct (handle_msg_grows _ _ _ _ _ _ _ _ _ Hm) as [Hk1 Ho1].
    destruct (IH _ _ _ _ Hc) as [Hk2 Ho2].
    split; [auto|].
    intros q e Hq. destruct (Ho1 q e Hq) as (e1 & Hq1 & Hn1).
    destruct (Ho2 q e1 Hq1) as (e2 & Hq2 & Hn2).
    exists e2. split; [done|congruence].
Qed.

Lemma table_only_grows_witness :
  is_Some (inprogress
             (correlate ex_pkg ex_net ex_client (2 * Second)%Z
                (ensureName empty_store "a.local.").1 ex_arrivals).1.1
           !! "a.local.").
Proof.
  destruct (table_only_grows ex_pkg ex_net ex_client (2 * Second)%Z ex_arrivals
              (ensureName empty_store "a.local.").1
              (correlate ex_pkg ex_net ex_client (2 * Second)%Z
                 (ensureName empty_store "a.local.").1 ex_arrivals).1.1
              (correlate ex_pkg ex_net ex_client (2 * Second)%Z
                 (ensureName empty_store "a.local.").1 ex_arrivals).1.2
              (correlate ex_pkg ex_net ex_client (2 * Second)%Z
                 (ensureName empty_store "a.local.").1 ex_arrivals).2)
    as [Hk _].
  - vm_compute. reflexivity.
  - apply Hk. vm_compute. eauto.
Defined.

(** X17: in the table [query] ends with, every name is bound to an
    allocated object. *)
Theorem final_table_has_no_dangling_pointer pkg net c params arrivals :
  wf (out_store (query pkg net c params arrivals)).
Proof.
  unfold query.
  destruct (dispatch pkg net c params) as [[err|] wd]; simpl; [apply wf_empty|].
  destruct (correlate pkg net c (finish_after params) empty_store arrivals)
    as [[st out] w] eqn:Hc.
  simpl. by apply (correlate_wf _ _ _ _ _ _ _ _ _ wf_empty Hc).
Qed.

(** ** Sending *)

(** X18: every datagram [sendQuery] writes carries the query itself and
    goes through a unicast socket of the client to the multicast group of
    its protocol; the multicast sockets are never written to. *)
Theorem sendQuery_writes_through_unicast pkg net c q :
  Forall (fun d : Datagram =>
            d.1.2 = q
            /\ ((ipv4UnicastConn c = Some d.1.1 /\ d.2 = ipv4Addr pkg)
                \/ (ipv6UnicastConn c = Some d.1.1 /\ d.2 = ipv6Addr pkg)))
    (sendQuery pkg net c q).2.
Proof.
  unfold sendQuery, write_to. destruct (Pack net q); [constructor|].
  destruct (ipv4UnicastConn c) as [u4|];
    [destruct (WriteToUDP net u4 q (ipv4Addr pkg)); [constructor|]|];
    (destruct (ipv6UnicastConn c) as [u6|];
       [destruct (WriteToUDP net u6 q (ipv6Addr pkg))|]);
    simpl; repeat (apply Forall_cons; split; [simpl; auto|]); constructor.
Qed.

(** X19: when [sendQuery] returns nil it has written the query once on
    each unicast socket the client has, IPv4 first. *)
Theorem sendQuery_ok_writes_each_socket pkg net c q :
  (sendQuery pkg net c q).1 = None ->
  (sendQuery pkg net c q).2
  = (match ipv4UnicastConn c with
     | Some u => [(u, q, ipv4Addr pkg)]
     | None => []
     end
     ++ match ipv6UnicastConn c with
        | Some u => [(u, q, ipv6Addr pkg)]
        | None => []
        end)%list.
Proof.
  unfold sendQuery, write_to. destruct (Pack net q); [done|].
  destruct (ipv4UnicastConn c) as [u4|];
    [destruct (WriteToUDP net u4 q (ipv4Addr pkg)); [done|]|];
    (destruct (ipv6UnicastConn c) as [u6|];
       [destruct (WriteToUDP net u6 q (ipv6Addr pkg))|]); done.
Qed.

Lemma sendQuery_ok_writes_each_socket_witness :
  length (sendQuery ex_pkg ex_net ex_client
            (question_for ex_pkg (DefaultParams "_http._tcp"))).2 = 2.
Proof.
  rewrite (sendQuery_ok_writes_each_socket ex_pkg ex_net ex_client
             (question_for ex_pkg (DefaultParams "_http._tcp")));
    reflexivity.
Defined.

(** X20: the message built for a parameter has one question, of type PTR,
    with recursion not desired; bit 15 of its class is set exactly when a
    unicast response is wanted and the other bits are those of class
    INET. *)
Theorem question_for_shape pkg par :
  exists q,
    Questions (question_for pkg par) = [q]
    /\ Qname q
       = (trimDot pkg (Service par) ++ "." ++ trimDot pkg (Domain par) ++ ".")%string
    /\ Qtype q = TypePTR
    /\ Z.testbit (Qclass q) 15 = WantUnicastResponse par
    /\ Z.land (Qclass q) 32767 = ClassINET
    /\ RecursionDesired (question_for pkg par) = false
    /\ Answer (question_for pkg par) = []
    /\ Extra (question_for pkg par) = [].
Proof.
  unfold question_for. destruct (WantUnicastResponse par);
    eexists; repeat split; reflexivity.
Qed.

(** ** Setting up and closing the client *)


(** X22: a client returned by [newClient], with or without an error, has
    IPv4 enabled exactly when IPv4 was asked for and both IPv4 binds
    succeeded, holds the two IPv4 sockets in that case and none of them
    otherwise, keeps the IPv6 flag and sockets as they were obtained, and
    has a protocol enabled. *)
Theorem newClient_client_shape net v4 v6 r c :
  newClient net v4 v6 = Returns r ->
  nc_client r = Some c ->
  use_ipv4 c
  = v4 && negb (is_nil (ListenUDP4 net)) && negb (is_nil (ListenMulticastUDP4 net))
  /\ ipv4UnicastConn c = (if use_ipv4 c then ListenUDP4 net else None)
  /\ ipv4MulticastConn c
     = (if use_ipv4 c then ListenMulticastUDP4 net else None)
  /\ use_ipv6 c = v6
  /\ ipv6UnicastConn c = (if v6 then ListenUDP6 net else None)
  /\ ipv6MulticastConn c = (if v6 then ListenMulticastUDP6 net else None)
  /\ use_ipv4 c || use_ipv6 c = true.
Proof.
  unfold newClient.
  destruct v4, v6, (ListenUDP4 net), (ListenUDP6 net),
    (ListenMulticastUDP4 net), (ListenMulticastUDP6 net); simpl;
    try (intros [= <-]; discriminate);
    match goal with
    | |- context [SetInterface net ?c0] =>
        destruct (SetInterface net c0) as [[?|]|]
    end; simpl; try discriminate;
    intros [= <-]; simpl; intros [= <-]; simpl; repeat split; reflexivity.
Qed.

Lemma newClient_client_shape_witness :
  use_ipv4 (mkClient true true (Some 1) (Some 2) (Some 3) (Some 4)) = true.
Proof.
  destruct (newClient_client_shape ex_net true true
              (mkNewClient
                 (Some (mkClient true true (Some 1) (Some 2) (Some 3) (Some 4)))
                 None [Some 1; Some 3])
              (mkClient true true (Some 1) (Some 2) (Some 3) (Some 4)))
    as (H & _).
  - reflexivity.
  - reflexivity.
  - exact H.
Defined.

(** X23: when [newClient] returns, it never returns a nil client with a
    nil error; with an error no reader task has been started, and without
    one the interface has been set and the readers are those of the
    client's two IPv4 sockets.  It panics only when IPv6 was asked for and
    one of the IPv6 binds failed. *)
Theorem newClient_result net v4 v6 :
  match newClient net v4 v6 with
  | Returns r =>
      match nc_err r with
      | Some _ => nc_spawned r = []
      | None =>
          exists c,
            nc_client r = Some c
            /\ SetInterface net c = Returns None
            /\ nc_spawned r = [ipv4UnicastConn c; ipv4MulticastConn c]
      end
  | Panics =>
      v6 = true /\ (ListenUDP6 net = None \/ ListenMulticastUDP6 net = None)
  end.
Proof.
  unfold newClient.
  destruct v4, v6, (ListenUDP4 net) as [u4|], (ListenUDP6 net) as [u6|],
    (ListenMulticastUDP4 net) as [m4|], (ListenMulticastUDP6 net) as [m6|];
    cbn -[SetInterface]; try reflexivity;
    match goal with
    | |- context [SetInterface net ?c0] =>
        destruct (SetInterface net c0) as [[?|]|] eqn:Hs
    end; cbn -[SetInterface]; try reflexivity;
    try (eexists; repeat split; exact Hs);
    try (split; [reflexivity|auto]);
    exfalso; revert Hs; unfold SetInterface, set_multicast_interface; simpl;
    repeat match goal with
           | |- context [SetMulticastInterface net ?x] =>
               destruct (SetMulticastInterface net x)
           end; discriminate.
Qed.

(** X24: asked for IPv4 only, [newClient] never panics, and it succeeds
    exactly when the unicast and the multicast bind both succeed and the
    interface can be set on both sockets. *)
Theorem newClient_ipv4_only_ok_iff net :
  newClient net true false <> Panics
  /\ ((exists r, newClient net true false = Returns r /\ nc_err r = None)
      <-> exists u m,
            ListenUDP4 net = Some u /\ ListenMulticastUDP4 net = Some m
            /\ SetMulticastInterface net u = None
            /\ SetMulticastInterface net m = None).
Proof.
  unfold newClient, SetInterface, set_multicast_interface.
  destruct (ListenUDP4 net) as [u|], (ListenMulticastUDP4 net) as [m|]; simpl;
    repeat match goal with
           | |- context [SetMulticastInterface net ?x] =>
               destruct (SetMulticastInterface net x) eqn:?
           end; simpl;
    (split;
     [discriminate
     |split;
      [intros (r & Hr & He); injection Hr as <-; try discriminate He; eauto 10
      |intros (? & ? & ? & ? & ? & ?); simplify_eq; try congruence; eauto]]).
Qed.

Lemma close_calls_closed n : forall s,
  sess_closed s <> 0%Z -> close_calls n s = (s, []).
Proof.
  induction n as [|n IH]; intros s Hs; simpl; [done|].
  unfold Close. destruct (Z.eqb_spec (sess_closed s) 0) as [?|_]; [done|].
  by rewrite IH.
Qed.

(** X25: however often [Close] is called on a session, one call after
    the other, the channel is closed once and each socket the client holds
    is closed once, by the first call (unicast sockets first); the later
    calls do nothing. *)
Theorem Close_repeated_closes_once c n :
  close_calls (S n) (mkSession c 0)
  = (mkSession c 1,
     CloseCh
     :: (CloseConn <$> omap id [ipv4UnicastConn c; ipv6UnicastConn c;
                                ipv4MulticastConn c; ipv6MulticastConn c])).
Proof.
  simpl. rewrite close_calls_closed by done. rewrite app_nil_r.
  f_equal. f_equal.
  by destruct (ipv4UnicastConn c), (ipv6UnicastConn c),
    (ipv4MulticastConn c), (ipv6MulticastConn c).
Qed.

(** X26: [Close] always returns nil, and a call on a session that has
    been closed, whatever its flag holds, leaves it as it is and closes
    nothing. *)
Theorem Close_twice s :
  (Close s).1.2 = None
  /\ Close (Close s).1.1 = ((Close s).1.1, None, []).
Proof.
  unfold Close. destruct (Z.eqb_spec (sess_closed s) 0) as [H0|Hn0]; simpl.
  - done.
  - split; [done|]. by destruct (Z.eqb_spec (sess_closed s) 0).
Qed.

(** X27: a reader keeps no state between packets: what it forwards for
    two runs of reads is what it forwards for the first followed by what
    it forwards for the second, so a failed read or an undecodable packet
    affects no other packet. *)
Theorem recv_loop_app net reads1 reads2 :
  recv_loop net (reads1 ++ reads2)
  = (recv_loop net reads1 ++ recv_loop net reads2)%list.
Proof.
  induction reads1 as [|[|buf addr] reads1 IH]; simpl; [done|done|].
  destruct (Unpack net buf); simpl; by rewrite ?IH.
Qed.

Lemma recv_loop_decoded net reads :
  Forall (fun m =>
            exists buf,
              ReadOk buf (src m) ∈ reads /\ Unpack net buf = Some (msg m))
    (recv_loop net reads).
Proof.
  induction reads as [|[|buf addr] reads IH]; simpl.
  - constructor.
  - eapply Forall_impl; [exact IH|]. intros m (b & ? & ?).
    exists b. split; [by right|done].
  - assert (Forall (fun m => exists buf0,
                      ReadOk buf0 (src m) ∈ ReadOk buf addr :: reads
                      /\ Unpack net buf0 = Some (msg m))
              (recv_loop net reads)) as Hrest.
    { eapply Forall_impl; [exact IH|]. intros m (b & ? & ?).
      exists b. split; [by right|done]. }
    destruct (Unpack net buf) as [m0|] eqn:Hu; [|exact Hrest].
    constructor; [|exact Hrest].
    exists buf. simpl. split; [by left|done].
Qed.

(** X28: every message a reader forwards is the decoding of a packet it
    read on its socket, tagged with the address that packet came from; a
    reader given a nil socket forwards nothing. *)
Theorem recv_forwards_decoded_packets net l traffic :
  Forall (fun m =>
            exists conn buf,
              l = Some conn
              /\ ReadOk buf (src m) ∈ traffic conn
              /\ Unpack net buf = Some (msg m))
    (recv net l traffic).
Proof.
  unfold recv. destruct l as [conn|]; [|constructor].
  eapply Forall_impl; [apply recv_loop_decoded|].
  intros m (b & ? & ?). by exists conn, b.
Qed.
